(** * Minesweeper AI: the knowledge-based inference engine

    A shallow embedding of [minesweeper.py] (classes [Sentence] and
    [MinesweeperAI]) and the properties of its inference loop.

    Conventions of the embedding:
    - a Python [int] is a [Z]; a cell [(i, j)] is a pair of [Z];
    - a Python [set] of cells is a [gset (Z * Z)]; its [==] is extensional
      equality, which for [gset] is Leibniz equality;
    - [self.knowledge] is a Python list of mutable [Sentence] objects, each
      object occurring once in the list; mutating every element in place is
      a [fmap] over the list, and a [for] loop over the list is an index
      that is compared with the current length at every iteration (this is
      what makes elements appended during the loop visible to the loop);
    - the [while changed] loop of [update_knowledge] may run forever, so it
      is a step function on configurations, iterated under a fuel bound. *)

From stdpp Require Import gmap list.
From Stdlib Require Import ZArith Lia.

Local Open Scope Z_scope.

Abbreviation Cell := (Z * Z)%type.

(** ** class Sentence *)

Record Sentence := { cells : gset Cell; count : Z }.

#[global] Instance Sentence_eq_dec : EqDecision Sentence.
Proof. solve_decision. Defined.

Module Sentence.

(** [__eq__]: same cell set and same count. *)
Definition eqb (s other : Sentence) : bool :=
  bool_decide (cells s = cells other) && bool_decide (count s = count other).

(** [__ne__] is derived by Python as the negation of [__eq__]. *)
Definition neb (s other : Sentence) : bool := negb (eqb s other).

Definition known_mines (s : Sentence) : gset Cell :=
  if decide (count s = Z.of_nat (size (cells s))) then cells s else ∅.

Definition known_safes (s : Sentence) : gset Cell :=
  if decide (count s = 0) then cells s else ∅.

Definition mark_mine (cell : Cell) (s : Sentence) : Sentence :=
  if decide (cell ∈ cells s)
  then {| cells := cells s ∖ {[cell]}; count := count s - 1 |}
  else s.

Definition mark_safe (cell : Cell) (s : Sentence) : Sentence :=
  if decide (cell ∈ cells s)
  then {| cells := cells s ∖ {[cell]}; count := count s |}
  else s.

End Sentence.

(** Truth value of a Python set: non-empty. *)
Definition truthy (X : gset Cell) : bool := negb (bool_decide (X = ∅)).

(** [x in l] on a list of sentences compares with [__eq__]. *)
Definition contains (l : list Sentence) (x : Sentence) : bool :=
  existsb (Sentence.eqb x) l.

(** ** class MinesweeperAI *)

Record MinesweeperAI := {
  height : Z;
  width : Z;
  moves_made : gset Cell;
  mines : gset Cell;
  safes : gset Cell;
  knowledge : list Sentence
}.

Definition set_knowledge (K : list Sentence) (st : MinesweeperAI) : MinesweeperAI :=
  {| height := height st; width := width st; moves_made := moves_made st;
     mines := mines st; safes := safes st; knowledge := K |}.

Definition add_mines (X : gset Cell) (st : MinesweeperAI) : MinesweeperAI :=
  {| height := height st; width := width st; moves_made := moves_made st;
     mines := mines st ∪ X; safes := safes st; knowledge := knowledge st |}.

Definition add_safes (X : gset Cell) (st : MinesweeperAI) : MinesweeperAI :=
  {| height := height st; width := width st; moves_made := moves_made st;
     mines := mines st; safes := safes st ∪ X; knowledge := knowledge st |}.

Definition add_move (cell : Cell) (st : MinesweeperAI) : MinesweeperAI :=
  {| height := height st; width := width st;
     moves_made := moves_made st ∪ {[cell]};
     mines := mines st; safes := safes st; knowledge := knowledge st |}.

(** Python's [range(lo, hi)]. *)
Definition range (lo hi : Z) : list Z := seqZ lo (hi - lo).

(** Program points of [update_knowledge], at the granularity of one loop
    iteration.  [Extract i]: the first [for] loop is about to fetch
    [self.knowledge[i]].  [Combine i j]: the nested loops are about to
    fetch [sentence1 = self.knowledge[i]] and [sentence2 =
    self.knowledge[j]].  [Halted]: the [while] test failed. *)
Inductive pc := Extract (i : nat) | Combine (i j : nat) | Halted.

Record config := { ai : MinesweeperAI; changed : bool; at_pc : pc }.

Module MinesweeperAI.

Definition init (h w : Z) : MinesweeperAI :=
  {| height := h; width := w; moves_made := ∅; mines := ∅; safes := ∅;
     knowledge := [] |}.

Definition mark_mine (cell : Cell) (st : MinesweeperAI) : MinesweeperAI :=
  set_knowledge (Sentence.mark_mine cell <$> knowledge st)
                (add_mines {[cell]} st).

Definition mark_safe (cell : Cell) (st : MinesweeperAI) : MinesweeperAI :=
  set_knowledge (Sentence.mark_safe cell <$> knowledge st)
                (add_safes {[cell]} st).

Definition get_neighbors (st : MinesweeperAI) (cell : Cell) : list Cell :=
  let '(i, j) := cell in
  x ← range (i - 1) (i + 2);
  y ← range (j - 1) (j + 2);
  if bool_decide (0 <= x < height st) && bool_decide (0 <= y < width st)
     && bool_decide ((x, y) ≠ (i, j))
  then [(x, y)] else [].

(** [for safe in safes: self.mark_safe(safe)], the set being visited in
    the order of [elements]. *)
Definition mark_safes (l : list Cell) (st : MinesweeperAI) : MinesweeperAI :=
  foldl (λ st c, mark_safe c st) st l.

Definition mark_mines (l : list Cell) (st : MinesweeperAI) : MinesweeperAI :=
  foldl (λ st c, mark_mine c st) st l.

(** Body of the first [for] loop of [update_knowledge], for the sentence
    just fetched.  Both queries are evaluated before anything is marked. *)
Definition extract_body (sentence : Sentence) (c : MinesweeperAI * bool)
  : MinesweeperAI * bool :=
  let safes := Sentence.known_safes sentence in
  let mines := Sentence.known_mines sentence in
  let c1 :=
    if truthy safes
    then (mark_safes (elements safes) (add_safes safes c.1), true)
    else c in
  if truthy mines
  then (mark_mines (elements mines) (add_mines mines c1.1), true)
  else c1.

(** [self.knowledge = [s for s in self.knowledge if s.cells]] *)
Definition collect (K : list Sentence) : list Sentence :=
  filter (λ s, truthy (cells s) = true) K.

(** Body of the inner subsumption loop. *)
Definition combine_body (sentence1 sentence2 : Sentence)
    (c : list Sentence * bool) : list Sentence * bool :=
  if Sentence.neb sentence1 sentence2
     && bool_decide (cells sentence1 ⊆ cells sentence2)
  then
    let diff_cells := cells sentence2 ∖ cells sentence1 in
    let diff_count := count sentence2 - count sentence1 in
    let new_sentence := {| cells := diff_cells; count := diff_count |} in
    if negb (contains c.1 new_sentence) && truthy (cells new_sentence)
    then (c.1 ++ [new_sentence], true)
    else c
  else c.

(** One loop iteration of [update_knowledge]. *)
Definition step (c : config) : config :=
  let st := ai c in
  match at_pc c with
  | Extract i =>
      match knowledge st !! i with
      | Some sentence =>
          let r := extract_body sentence (st, changed c) in
          {| ai := r.1; changed := r.2; at_pc := Extract (S i) |}
      | None =>
          {| ai := set_knowledge (collect (knowledge st)) st;
             changed := changed c; at_pc := Combine 0 0 |}
      end
  | Combine i j =>
      match knowledge st !! i with
      | Some sentence1 =>
          match knowledge st !! j with
          | Some sentence2 =>
              let r := combine_body sentence1 sentence2
                                    (knowledge st, changed c) in
              {| ai := set_knowledge r.1 st; changed := r.2;
                 at_pc := Combine i (S j) |}
          | None =>
              {| ai := st; changed := changed c; at_pc := Combine (S i) 0 |}
          end
      | None =>
          if changed c
          then {| ai := st; changed := false; at_pc := Extract 0 |}
          else {| ai := st; changed := false; at_pc := Halted |}
      end
  | Halted => c
  end.

(** Entry of [update_knowledge]: [changed = True], so the [while] body is
    entered and resets [changed]. *)
Definition enter (st : MinesweeperAI) : config :=
  {| ai := st; changed := false; at_pc := Extract 0 |}.

Fixpoint run (fuel : nat) (c : config) : option MinesweeperAI :=
  match at_pc c with
  | Halted => Some (ai c)
  | _ => match fuel with
         | O => None
         | S fuel' => run fuel' (step c)
         end
  end.

Definition update_knowledge (fuel : nat) (st : MinesweeperAI)
  : option MinesweeperAI :=
  run fuel (enter st).

(** The partition of the neighbours in [add_knowledge]: the loop state is
    [(unknown_neighbors, count)]. *)
Definition sort_neighbor (st : MinesweeperAI) (acc : gset Cell * Z)
    (neighbor : Cell) : gset Cell * Z :=
  if decide (neighbor ∈ safes st) then acc
  else if decide (neighbor ∈ mines st) then (acc.1, acc.2 - 1)
  else (acc.1 ∪ {[neighbor]}, acc.2).

(** [add_knowledge] up to, and excluding, the call of [update_knowledge]. *)
Definition record_observation (st : MinesweeperAI) (cell : Cell) (count : Z)
  : MinesweeperAI :=
  let st := mark_safe cell (add_move cell st) in
  let neighbors := get_neighbors st cell in
  let r := foldl (sort_neighbor st) (∅, count) neighbors in
  let new_sentence := {| cells := r.1; count := r.2 |} in
  if truthy (cells new_sentence)
  then set_knowledge (knowledge st ++ [new_sentence]) st
  else st.

Definition add_knowledge (fuel : nat) (st : MinesweeperAI) (cell : Cell)
    (count : Z) : option MinesweeperAI :=
  update_knowledge fuel (record_observation st cell count).

Definition make_safe_move (st : MinesweeperAI) : option Cell :=
  List.find (λ cell, bool_decide (cell ∉ moves_made st))
            (elements (safes st)).

(** [make_random_move]: every loop iteration consumes one pair of draws
    [(randint(0, height - 1), randint(0, width - 1))].  The result is
    [None] when the draws run out before the loop returns, [Some None]
    for Python's [None] and [Some (Some move)] for a move.  What [randint]
    returns lies in its range, so the properties below take draws on the
    board; on a board without cells [randint] raises, which is not
    modelled. *)
Fixpoint make_random_move (st : MinesweeperAI) (draws : list Cell)
  : option (option Cell) :=
  match draws with
  | [] => None
  | move :: draws' =>
      if bool_decide (move ∉ moves_made st) && bool_decide (move ∉ mines st)
      then Some (Some move)
      else if bool_decide (Z.of_nat (size (moves_made st))
                           + Z.of_nat (size (mines st))
                           = height st * width st)
      then Some None
      else make_random_move st draws'
  end.

End MinesweeperAI.

(** ** Runs of [update_knowledge] *)

(** The configuration after [n] loop iterations. *)
Fixpoint steps (n : nat) (c : config) : config :=
  match n with
  | O => c
  | S n' => steps n' (MinesweeperAI.step c)
  end.

(** ** The interface, as a type of calls *)

Inductive call :=
| AddKnowledge (cell : Cell) (count : Z)
| MarkMine (cell : Cell)
| MarkSafe (cell : Cell)
| MakeSafeMove
| MakeRandomMove (draws : list Cell).

(** The state after a call; the two move queries leave the state as it
    is. *)
Definition perform (fuel : nat) (st : MinesweeperAI) (o : call)
  : option MinesweeperAI :=
  match o with
  | AddKnowledge cell count => MinesweeperAI.add_knowledge fuel st cell count
  | MarkMine cell => Some (MinesweeperAI.mark_mine cell st)
  | MarkSafe cell => Some (MinesweeperAI.mark_safe cell st)
  | MakeSafeMove => Some st
  | MakeRandomMove _ => Some st
  end.

(** States reachable from a fresh [h] by [w] instance through calls that
    satisfy [ok]. *)
Inductive reachable (ok : MinesweeperAI → call → Prop) (h w : Z)
  : MinesweeperAI → Prop :=
| reachable_init : reachable ok h w (MinesweeperAI.init h w)
| reachable_call st o fuel st' :
    reachable ok h w st → ok st o → perform fuel st o = Some st' →
    reachable ok h w st'.

(** No restriction on the calls. *)
Definition any_call (st : MinesweeperAI) (o : call) : Prop := True.

(** A call that does not contradict what the engine knows already: no
    known mine is revealed or marked as safe, and no known safe cell is
    marked as a mine.  The count that comes with a revealed cell is not
    restricted. *)
Definition uncontradicted (st : MinesweeperAI) (o : call) : Prop :=
  match o with
  | AddKnowledge cell _ => cell ∉ mines st
  | MarkMine cell => cell ∉ safes st
  | MarkSafe cell => cell ∉ mines st
  | MakeSafeMove | MakeRandomMove _ => True
  end.

(** ** Ground truth *)

(** A sentence is true of the mine assignment [M]. *)
Definition holds (M : gset Cell) (s : Sentence) : Prop :=
  count s = Z.of_nat (size (cells s ∩ M)).

(** Everything the engine believes is true of [M]. *)
Definition sound (M : gset Cell) (st : MinesweeperAI) : Prop :=
  mines st ⊆ M ∧ safes st ## M ∧ ∀ s, s ∈ knowledge st → holds M s.

(** The number of mines around [cell], as the game reports it. *)
Definition nearby_mines (M : gset Cell) (st : MinesweeperAI) (cell : Cell) : Z :=
  Z.of_nat (size (list_to_set (MinesweeperAI.get_neighbors st cell) ∩ M)).

(** A call that tells the truth about [M]: a revealed cell is not a mine and
    comes with the number of mines around it; a cell is marked for what it
    is. *)
Definition truthful (M : gset Cell) (st : MinesweeperAI) (o : call) : Prop :=
  match o with
  | AddKnowledge cell count => cell ∉ M ∧ count = nearby_mines M st cell
  | MarkMine cell => cell ∈ M
  | MarkSafe cell => cell ∉ M
  | MakeSafeMove | MakeRandomMove _ => True
  end.

(** The invariant of the data model: [0 <= count <= |cells|]. *)
Definition bounded (s : Sentence) : Prop :=
  0 <= count s <= Z.of_nat (size (cells s)).

(** No sentence mentions a cell whose status is settled. *)
Definition tidy (st : MinesweeperAI) : Prop :=
  ∀ s, s ∈ knowledge st → cells s ## mines st ∪ safes st.

Definition in_board (st : MinesweeperAI) (c : Cell) : Prop :=
  0 <= c.1 < height st ∧ 0 <= c.2 < width st.

Definition adjacent (c n : Cell) : Prop :=
  Z.abs (n.1 - c.1) <= 1 ∧ Z.abs (n.2 - c.2) <= 1 ∧ n ≠ c.

(** All cells that occur in some sentence. *)
Definition universe (K : list Sentence) : gset Cell := ⋃ (cells <$> K).

(** A sentence after all cells of [X] were marked safe, and after all cells
    of [X] were marked as mines. *)
Definition without_safes (X : gset Cell) (s : Sentence) : Sentence :=
  {| cells := cells s ∖ X; count := count s |}.

Definition without_mines (X : gset Cell) (s : Sentence) : Sentence :=
  {| cells := cells s ∖ X; count := count s - Z.of_nat (size (cells s ∩ X)) |}.

(** ** The inference rules, as relations on states *)

(** What one visit of the extraction loop does with the sentence [s]. *)
Inductive extract_spec (s : Sentence) (st : MinesweeperAI) (ch : bool)
  : MinesweeperAI * bool → Prop :=
| extract_safes :
    count s = 0 → cells s ≠ ∅ →
    extract_spec s st ch
      (set_knowledge (without_safes (cells s) <$> knowledge st)
                     (add_safes (cells s) st), true)
| extract_mines :
    count s = Z.of_nat (size (cells s)) → cells s ≠ ∅ →
    extract_spec s st ch
      (set_knowledge (without_mines (cells s) <$> knowledge st)
                     (add_mines (cells s) st), true)
| extract_nothing :
    Sentence.known_safes s = ∅ → Sentence.known_mines s = ∅ →
    extract_spec s st ch (st, ch).

(** The sentence derived from [s1 ⊆ s2] by subsumption. *)
Definition candidate (s1 s2 : Sentence) : Sentence :=
  {| cells := cells s2 ∖ cells s1; count := count s2 - count s1 |}.

(** The four ways in which a loop iteration of [update_knowledge] changes
    the state: a sentence with count 0 makes its cells safe, a sentence
    whose count is the number of its cells makes them mines, the sentences
    without cells are dropped, or a new sentence is derived from two
    sentences of which the first is included in the second. *)
Inductive infers : MinesweeperAI → MinesweeperAI → Prop :=
| infers_safes st s :
    s ∈ knowledge st → count s = 0 → cells s ≠ ∅ →
    infers st (set_knowledge (without_safes (cells s) <$> knowledge st)
                             (add_safes (cells s) st))
| infers_mines st s :
    s ∈ knowledge st → count s = Z.of_nat (size (cells s)) → cells s ≠ ∅ →
    infers st (set_knowledge (without_mines (cells s) <$> knowledge st)
                             (add_mines (cells s) st))
| infers_collect st :
    infers st (set_knowledge (MinesweeperAI.collect (knowledge st)) st)
| infers_combine st s1 s2 :
    s1 ∈ knowledge st → s2 ∈ knowledge st →
    s1 ≠ s2 → cells s1 ⊆ cells s2 →
    candidate s1 s2 ∉ knowledge st → cells (candidate s1 s2) ≠ ∅ →
    infers st (set_knowledge (knowledge st ++ [candidate s1 s2]) st).

(** ** The observation recorded by [add_knowledge] *)

(** The cells of the new sentence and its count, as sets. *)
Definition unknown_neighbors (st : MinesweeperAI) (cell : Cell) : gset Cell :=
  list_to_set (MinesweeperAI.get_neighbors st cell)
    ∖ (safes st ∪ {[cell]}) ∖ mines st.

Definition known_mine_neighbors (st : MinesweeperAI) (cell : Cell) : gset Cell :=
  (list_to_set (MinesweeperAI.get_neighbors st cell) ∩ mines st)
    ∖ (safes st ∪ {[cell]}).

(** ** States at rest *)

(** A productive pair: subsumption would add its candidate. *)
Definition productive (K : list Sentence) (s1 s2 : Sentence) : Prop :=
  s1 ≠ s2 ∧ cells s1 ⊆ cells s2
  ∧ candidate s1 s2 ∉ K ∧ cells (candidate s1 s2) ≠ ∅.

(** Nothing is left to extract, to drop or to derive. *)
Definition stable (st : MinesweeperAI) : Prop :=
  (∀ s, s ∈ knowledge st →
        cells s ≠ ∅ ∧ count s ≠ 0 ∧ count s ≠ Z.of_nat (size (cells s)))
  ∧ (∀ s1 s2, s1 ∈ knowledge st → s2 ∈ knowledge st →
              ¬ productive (knowledge st) s1 s2).

(** What is known at a program point of a round in which nothing changed
    so far. *)
Definition quiet (c : config) : Prop :=
  match at_pc c with
  | Extract i =>
      changed c = false →
      ∀ i' s, (i' < i)%nat → knowledge (ai c) !! i' = Some s →
              Sentence.known_safes s = ∅ ∧ Sentence.known_mines s = ∅
  | Combine i j =>
      changed c = false →
      (∀ s, s ∈ knowledge (ai c) →
            cells s ≠ ∅ ∧ Sentence.known_safes s = ∅
            ∧ Sentence.known_mines s = ∅)
      ∧ (∀ i' j' s1 s2,
            (i' < i ∨ (i' = i ∧ j' < j))%nat →
            knowledge (ai c) !! i' = Some s1 →
            knowledge (ai c) !! j' = Some s2 →
            ¬ productive (knowledge (ai c)) s1 s2)
  | Halted => stable (ai c)
  end.

(** The cells of all sentences lie on the board. *)
Definition on_board (st : MinesweeperAI) : Prop :=
  ∀ s c, s ∈ knowledge st → c ∈ cells s → in_board st c.

(** The state of the knowledge after [add_knowledge]. *)
Definition hygienic (st : MinesweeperAI) : Prop :=
  ∀ s, s ∈ knowledge st →
       cells s ≠ ∅ ∧ (∀ c, c ∈ cells s → in_board st c)
       ∧ cells s ## mines st ∧ cells s ## safes st.

(** ** Measures for termination *)

(** All subsets of the cells of a list. *)
Fixpoint powerset (l : list Cell) : gset (gset Cell) :=
  match l with
  | [] => {[ ∅ ]}
  | x :: l' => powerset l' ∪ set_map (λ X : gset Cell, {[x]} ∪ X) (powerset l')
  end.

(** The cell sets of the sentences. *)
Definition shapes (K : list Sentence) : gset (gset Cell) :=
  list_to_set (cells <$> K).

(** The number of non-empty sets of cells of the universe that are not the
    cell set of a sentence yet. *)
Definition missing (K : list Sentence) : nat :=
  size ((powerset (elements (universe K)) ∖ {[ ∅ ]}) ∖ shapes K).

(** ** A run that never ends

    Two sentences on the same cells [A ∪ B] with the counts 2 and 3, and a
    sentence on [A] or [B]: the subsumption loops derive sentences on [A]
    and on [B] with ever larger counts. *)

Definition wide (A B : gset Cell) (k : Z) : Sentence :=
  {| cells := A ∪ B; count := k |}.

(** How far a count is from the counts the two wide sentences agree on. *)
Definition slack (n : Z) : Z := Z.abs (4 * n - 5).

(** The subsumption loops are running, the two wide sentences are at the
    indices 2 and 4, and the sentence of largest slack was not passed by the
    outer loop yet, nor the wide sentence that takes it further by the inner
    loop. *)
Definition spinning (A B : gset Cell) (c : config) : Prop :=
  ∃ i j p s,
    at_pc c = Combine i j
    ∧ knowledge (ai c) !! 2%nat = Some (wide A B 2)
    ∧ knowledge (ai c) !! 4%nat = Some (wide A B 3)
    ∧ (∀ t, t ∈ knowledge (ai c) →
            cells t = A ∨ cells t = B
            ∨ (cells t = A ∪ B ∧ (count t = 2 ∨ count t = 3)))
    ∧ knowledge (ai c) !! p = Some s
    ∧ (cells s = A ∨ cells s = B)
    ∧ (∀ t, t ∈ knowledge (ai c) → cells t ≠ A ∪ B →
            slack (count t) <= slack (count s))
    ∧ ((i < p)%nat
       ∨ (i = p ∧ ((2 <= count s ∧ (j ≤ 2)%nat)
                   ∨ (count s <= 1 ∧ (j ≤ 4)%nat)))).

(** ** Comparing two runs *)

(** A sentence with everything removed that the state [F] has settled. *)
Definition settle (F : MinesweeperAI) (s : Sentence) : Sentence :=
  without_mines (mines F) (without_safes (safes F) s).

(** The state [st] knows nothing that [F] does not know: its safes and
    mines are those of [F], and each of its sentences, once settled, is
    used up or is a sentence of [F]. *)
Definition below (F st : MinesweeperAI) : Prop :=
  safes st ⊆ safes F ∧ mines st ⊆ mines F
  ∧ ∀ s, s ∈ knowledge st →
         cells (settle F s) = ∅ ∨ settle F s ∈ knowledge F.

(** ** The board, for [make_random_move] *)

Definition board_cells (st : MinesweeperAI) : list Cell :=
  x ← range 0 (height st); y ← range 0 (width st); [(x, y)].

(** The test that makes [make_random_move] give up. *)
Definition exhausted (st : MinesweeperAI) : Prop :=
  Z.of_nat (size (moves_made st)) + Z.of_nat (size (mines st))
  = height st * width st.

Definition free (st : MinesweeperAI) (c : Cell) : Prop :=
  c ∉ moves_made st ∧ c ∉ mines st.

(** ** Sequences of calls *)

(** The state after a list of calls, each run with the same fuel. *)
Fixpoint replay (fuel : nat) (st : MinesweeperAI) (calls : list call)
  : option MinesweeperAI :=
  match calls with
  | [] => Some st
  | o :: calls' =>
      match perform fuel st o with
      | Some st' => replay fuel st' calls'
      | None => None
      end
  end.

(** Every call of the list satisfies [ok] in the state in which it is
    made. *)
Fixpoint replay_ok (ok : MinesweeperAI → call → Prop) (fuel : nat)
    (st : MinesweeperAI) (calls : list call) : Prop :=
  match calls with
  | [] => True
  | o :: calls' =>
      ok st o ∧ match perform fuel st o with
                | Some st' => replay_ok ok fuel st' calls'
                | None => True
                end
  end.

#[global] Instance truthful_dec M st o : Decision (truthful M st o).
Proof. destruct o; simpl; apply _. Defined.

#[global] Instance any_call_dec st o : Decision (any_call st o).
Proof. unfold any_call. apply _. Defined.

#[global] Instance uncontradicted_dec st o : Decision (uncontradicted st o).
Proof. destruct o; simpl; apply _. Defined.

#[global] Instance replay_ok_dec ok fuel st calls :
  (∀ st o, Decision (ok st o)) → Decision (replay_ok ok fuel st calls).
Proof.
  intros Hok. revert st. induction calls as [| o calls IH]; intros st; simpl.
  - apply _.
  - destruct (perform fuel st o); apply _.
Defined.

(** ** Following a sentence through a run *)

(** What became of a sentence [s] all of whose cells are mines: a sentence
    [t] of the knowledge, or one without cells, and the cells that [t] lost
    are mines of the state.  Likewise for a sentence with count 0. *)
Definition mined (s : Sentence) (st : MinesweeperAI) : Prop :=
  ∃ t, (t ∈ knowledge st ∨ cells t = ∅)
       ∧ cells t ⊆ cells s ∧ cells s ∖ cells t ⊆ mines st
       ∧ count t = Z.of_nat (size (cells t)).

Definition cleared (s : Sentence) (st : MinesweeperAI) : Prop :=
  ∃ t, (t ∈ knowledge st ∨ cells t = ∅)
       ∧ cells t ⊆ cells s ∧ cells s ∖ cells t ⊆ safes st
       ∧ count t = 0.

(** ** Concrete games, for the examples *)

Definition AB1 : Sentence := {| cells := {[ (0,0); (0,1) ]}; count := 1 |}.
Definition ABC1 : Sentence :=
  {| cells := {[ (0,0); (0,1); (0,2) ]}; count := 1 |}.
Definition C0 : Sentence := {| cells := {[ (0,2) ]}; count := 0 |}.

Definition pair_visit : config :=
  {| ai := set_knowledge [AB1; ABC1] (MinesweeperAI.init 1 3);
     changed := false; at_pc := Combine 0 1 |}.

Definition one_mine : gset Cell := {[ (2,2) ]}.

Definition opening : list call :=
  [AddKnowledge (0,0) 0; AddKnowledge (1,1) 1].

Definition after_opening : MinesweeperAI :=
  {| height := 3; width := 3;
     moves_made := {[ (0,0); (1,1) ]};
     mines := ∅;
     safes := {[ (0,0); (0,1); (1,0); (1,1) ]};
     knowledge :=
       [{| cells := {[ (0,2); (1,2); (2,0); (2,1); (2,2) ]}; count := 1 |}] |}.

(** The next observation: [(1,0)] has no mine around it, which makes
    [(2,0)] and [(2,1)] safe. *)
Definition second_row : Sentence :=
  {| cells := {[ (2,0); (2,1) ]}; count := 0 |}.

(** On a 1 by 2 board, [(0,0)] is said to have one mine around it, and then
    the only candidate, [(0,1)], is revealed. *)
Definition revealed_mine : MinesweeperAI :=
  {| height := 1; width := 2;
     moves_made := {[ (0,0); (0,1) ]};
     mines := {[ (0,1) ]};
     safes := {[ (0,0); (0,1) ]};
     knowledge := [] |}.

(** On a 1 by 4 board, [(0,0)] reports one mine, which makes [(0,1)] a known
    mine, and then [(0,2)] reports three mines, of which [(0,3)] would have
    to hold two: no mine assignment agrees with the knowledge, and no call
    went against what was known. *)
Definition overcounted : MinesweeperAI :=
  {| height := 1; width := 4;
     moves_made := {[ (0,0); (0,2) ]};
     mines := {[ (0,1) ]};
     safes := {[ (0,0); (0,2) ]};
     knowledge := [{| cells := {[ (0,3) ]}; count := 2 |}] |}.

(** The same two calls on a 1 by 3 board: the sizes of the moves made and
    of the mines add up to the size of the board, and [(0,2)] is free. *)
Definition counted_twice : MinesweeperAI :=
  {| height := 1; width := 3;
     moves_made := {[ (0,0); (0,1) ]};
     mines := {[ (0,1) ]};
     safes := {[ (0,0); (0,1); (0,2) ]};
     knowledge := [] |}.

(** On a 2 by 2 board, [(0,0)] and [(0,1)] both report one mine, which
    leaves one mine for [(1,0)] and [(1,1)]; then [(1,0)] is revealed and
    reports no mine. *)
Definition two_reports : MinesweeperAI :=
  {| height := 2; width := 2;
     moves_made := {[ (0,0); (0,1) ]};
     mines := ∅;
     safes := {[ (0,0); (0,1) ]};
     knowledge := [{| cells := {[ (1,0); (1,1) ]}; count := 1 |};
                   {| cells := {[ (1,0); (1,1) ]}; count := 1 |}] |}.

Definition last_cell_clear : Sentence :=
  {| cells := {[ (1,1) ]}; count := 0 |}.

(** On a 2 by 4 board, the two cells of the first column report one mine
    each and [(0,2)] reports two; then [(1,2)] reports three, where its
    neighbour [(0,2)] saw two among the same cells. *)
Definition column1 : gset Cell := {[ (0,1); (1,1) ]}.
Definition column3 : gset Cell := {[ (0,3); (1,3) ]}.

Definition before_spin : MinesweeperAI :=
  {| height := 2; width := 4;
     moves_made := {[ (0,0); (1,0); (0,2) ]};
     mines := ∅;
     safes := {[ (0,0); (1,0); (0,2) ]};
     knowledge :=
       [{| cells := column1; count := 1 |};
        {| cells := column1; count := 1 |};
        {| cells := column1 ∪ column3 ∪ {[ (1,2) ]}; count := 2 |};
        {| cells := column3 ∪ {[ (1,2) ]}; count := 1 |}] |}.

(** The configuration at the start of the subsumption loops of the first
    round. *)
Definition spin_start : config :=
  {| ai := {| height := 2; width := 4;
              moves_made := {[ (0,0); (1,0); (0,2); (1,2) ]};
              mines := ∅;
              safes := {[ (0,0); (1,0); (0,2); (1,2) ]};
              knowledge :=
                [{| cells := column1; count := 1 |};
                 {| cells := column1; count := 1 |};
                 wide column1 column3 2;
                 {| cells := column3; count := 1 |};
                 wide column1 column3 3] |};
     changed := false; at_pc := Combine 0 0 |}.

(** A 3 by 4 board with four mines; [(0,2)], [(1,1)] and [(2,1)] were
    revealed and [(0,0)] is revealed next. *)
Definition four_mines : gset Cell := {[ (0,1); (1,3); (2,0); (2,2) ]}.

Definition three_revealed : MinesweeperAI :=
  {| height := 3; width := 4;
     moves_made := {[ (0,2); (1,1); (2,1) ]};
     mines := ∅;
     safes := {[ (0,2); (1,1); (2,1) ]};
     knowledge :=
       [{| cells := {[ (0,1); (0,3); (1,2); (1,3) ]}; count := 2 |};
        {| cells := {[ (0,0); (0,1); (1,0); (1,2); (2,0); (2,2) ]};
           count := 3 |};
        {| cells := {[ (1,0); (1,2); (2,0); (2,2) ]}; count := 2 |};
        {| cells := {[ (0,0); (0,1) ]}; count := 1 |}] |}.

(** The state in which the fixpoint procedure starts, and its sentences
    with the last one moved to the front. *)
Definition fourth_recorded : MinesweeperAI :=
  MinesweeperAI.record_observation three_revealed (0,0) 1.

Definition last_first : list Sentence :=
  drop 4 (knowledge fourth_recorded) ++ take 4 (knowledge fourth_recorded).

Definition ABCD2 : Sentence :=
  {| cells := {[ (0,0); (0,1); (0,2); (0,3) ]}; count := 2 |}.

Definition CD1 : Sentence := {| cells := {[ (0,2); (0,3) ]}; count := 1 |}.

Definition nested_pair : MinesweeperAI :=
  set_knowledge [AB1; ABCD2] (MinesweeperAI.init 1 4).

(** A sentence all of whose cells are mines, under an assignment with three
    mines. *)
Definition both_mines : Sentence :=
  {| cells := {[ (0,0); (0,1) ]}; count := 2 |}.

Definition three_mines : gset Cell := {[ (0,0); (0,1); (2,2) ]}.

(** * Properties *)

(** ** Elementary facts about the helpers *)

Lemma truthy_true (X : gset Cell) : truthy X = true ↔ X ≠ ∅.
Proof.
  unfold truthy. rewrite negb_true_iff, bool_decide_eq_false. done.
Qed.

Lemma truthy_false (X : gset Cell) : truthy X = false ↔ X = ∅.
Proof.
  unfold truthy. rewrite negb_false_iff, bool_decide_eq_true. done.
Qed.

Lemma eqb_eq (s t : Sentence) : Sentence.eqb s t = true ↔ s = t.
Proof.
  unfold Sentence.eqb. rewrite andb_true_iff, !bool_decide_eq_true.
  destruct s, t; simpl. split; [intros [-> ->]; done | by inversion 1].
Qed.

Lemma neb_true (s t : Sentence) : Sentence.neb s t = true ↔ s ≠ t.
Proof.
  unfold Sentence.neb. rewrite negb_true_iff, <- not_true_iff_false, eqb_eq.
  done.
Qed.

Lemma contains_true (l : list Sentence) (x : Sentence) :
  contains l x = true ↔ x ∈ l.
Proof.
  unfold contains. rewrite existsb_exists. split.
  - intros (y & Hy & Heq). apply eqb_eq in Heq as ->. by apply list_elem_of_In.
  - intros Hx. exists x. split; [by apply list_elem_of_In | by apply eqb_eq].
Qed.

Lemma contains_false (l : list Sentence) (x : Sentence) :
  contains l x = false ↔ x ∉ l.
Proof. rewrite <- not_true_iff_false, contains_true. done. Qed.

(** ** Sentence operations *)

Lemma cells_mark_mine (c : Cell) (s : Sentence) :
  cells (Sentence.mark_mine c s) = cells s ∖ {[c]}.
Proof. unfold Sentence.mark_mine. case_decide; simpl; set_solver. Qed.

Lemma cells_mark_safe (c : Cell) (s : Sentence) :
  cells (Sentence.mark_safe c s) = cells s ∖ {[c]}.
Proof. unfold Sentence.mark_safe. case_decide; simpl; set_solver. Qed.

Lemma size_remove (X : gset Cell) (c : Cell) :
  c ∈ X → size X = S (size (X ∖ {[c]})).
Proof.
  intros Hc. rewrite (union_difference_L {[c]} X) at 1 by set_solver.
  rewrite size_union by set_solver. by rewrite size_singleton.
Qed.

(** C4.  The two queries return a copy of the whole cell set exactly under
    their arithmetic test and the empty set otherwise (being functions,
    they leave the sentence as it is); [mark_mine] removes a member cell and
    lowers the count by one, [mark_safe] removes a member cell and keeps
    the count, and both leave the sentence unchanged for a cell that is not
    a member. *)
Theorem sentence_operations (s : Sentence) (c : Cell) :
  (Sentence.known_mines s
   = if bool_decide (count s = Z.of_nat (size (cells s))) then cells s else ∅)
  ∧ (Sentence.known_safes s
     = if bool_decide (count s = 0) then cells s else ∅)
  ∧ (if bool_decide (c ∈ cells s)
     then cells (Sentence.mark_mine c s) = cells s ∖ {[c]}
          ∧ c ∉ cells (Sentence.mark_mine c s)
          ∧ S (size (cells (Sentence.mark_mine c s))) = size (cells s)
          ∧ count (Sentence.mark_mine c s) = count s - 1
     else Sentence.mark_mine c s = s)
  ∧ (if bool_decide (c ∈ cells s)
     then cells (Sentence.mark_safe c s) = cells s ∖ {[c]}
          ∧ c ∉ cells (Sentence.mark_safe c s)
          ∧ S (size (cells (Sentence.mark_safe c s))) = size (cells s)
          ∧ count (Sentence.mark_safe c s) = count s
     else Sentence.mark_safe c s = s).
Proof.
  repeat split.
  - unfold Sentence.known_mines. by repeat case_decide; case_bool_decide.
  - unfold Sentence.known_safes. by repeat case_decide; case_bool_decide.
  - case_bool_decide as Hc.
    + rewrite cells_mark_mine. repeat split; [set_solver | |].
      * by rewrite <- size_remove.
      * unfold Sentence.mark_mine. by rewrite decide_True.
    + unfold Sentence.mark_mine. by rewrite decide_False.
  - case_bool_decide as Hc.
    + rewrite cells_mark_safe. repeat split; [set_solver | |].
      * by rewrite <- size_remove.
      * unfold Sentence.mark_safe. by rewrite decide_True.
    + unfold Sentence.mark_safe. by rewrite decide_False.
Qed.

(** ** Narrowing and combining sentences preserves their truth *)

Section ground_truth.
Variable M : gset Cell.

Lemma holds_mark_mine (c : Cell) (s : Sentence) :
  c ∈ M → holds M s → holds M (Sentence.mark_mine c s).
Proof.
  unfold holds, Sentence.mark_mine. intros Hc Hs.
  case_decide as Hin; [simpl | done].
  assert (size (cells s ∩ M) = S (size ((cells s ∖ {[c]}) ∩ M))) as Hsz.
  { rewrite (size_remove _ c) by set_solver. f_equal. f_equal. set_solver. }
  lia.
Qed.

Lemma holds_mark_safe (c : Cell) (s : Sentence) :
  c ∉ M → holds M s → holds M (Sentence.mark_safe c s).
Proof.
  unfold holds, Sentence.mark_safe. intros Hc Hs.
  case_decide as Hin; [simpl | done].
  rewrite Hs. do 2 f_equal. set_solver.
Qed.

Lemma holds_known_safes (s : Sentence) :
  holds M s → Sentence.known_safes s ## M.
Proof.
  unfold holds, Sentence.known_safes. intros Hs.
  case_decide as H0; [| set_solver].
  assert (size (cells s ∩ M) = 0%nat) as Hsz by lia.
  apply size_empty_inv in Hsz. set_solver.
Qed.

Lemma holds_known_mines (s : Sentence) :
  holds M s → Sentence.known_mines s ⊆ M.
Proof.
  unfold holds, Sentence.known_mines. intros Hs.
  case_decide as H0; [| set_solver].
  assert (cells s ∩ M ≡ cells s) as Heq.
  { apply set_subseteq_size_equiv; [set_solver | lia]. }
  set_solver.
Qed.

Lemma holds_difference (A B : Sentence) :
  cells A ⊆ cells B → holds M A → holds M B →
  holds M {| cells := cells B ∖ cells A; count := count B - count A |}.
Proof.
  unfold holds. simpl. intros Hsub HA HB.
  assert (size (cells B ∩ M)
          = (size (cells A ∩ M) + size ((cells B ∖ cells A) ∩ M))%nat) as Hsz.
  { rewrite <- size_union by set_solver. f_equal.
    apply leibniz_equiv. intros x. split; [| set_solver].
    intros Hx. destruct (decide (x ∈ cells A)); set_solver. }
  lia.
Qed.

Lemma holds_bounded (s : Sentence) : holds M s → bounded s.
Proof.
  unfold holds, bounded. intros ->. split; [lia |].
  apply inj_le, subseteq_size. set_solver.
Qed.

Lemma holds_unique (s t : Sentence) :
  holds M s → holds M t → cells s = cells t → s = t.
Proof.
  unfold holds. destruct s, t; simpl. intros -> -> ->. done.
Qed.

Lemma holds_empty (s : Sentence) : holds M s → cells s = ∅ → count s = 0.
Proof.
  unfold holds. intros -> ->. by rewrite intersection_empty_l_L, size_empty.
Qed.

End ground_truth.

(** ** Marking a whole set of cells *)

Lemma state_eq (st st' : MinesweeperAI) :
  height st = height st' → width st = width st' →
  moves_made st = moves_made st' → mines st = mines st' →
  safes st = safes st' → knowledge st = knowledge st' → st = st'.
Proof. destruct st, st'; simpl; congruence. Qed.

Lemma without_safes_mark_safe (X : gset Cell) (c : Cell) (s : Sentence) :
  without_safes X (Sentence.mark_safe c s) = without_safes ({[c]} ∪ X) s.
Proof.
  unfold without_safes, Sentence.mark_safe.
  case_decide; simpl; f_equal; set_solver.
Qed.

Lemma without_mines_mark_mine (X : gset Cell) (c : Cell) (s : Sentence) :
  without_mines X (Sentence.mark_mine c s) = without_mines ({[c]} ∪ X) s.
Proof.
  unfold without_mines, Sentence.mark_mine.
  case_decide as Hc; simpl.
  - f_equal; [set_solver |].
    rewrite (size_remove (cells s ∩ ({[c]} ∪ X)) c) by set_solver.
    replace ((cells s ∩ ({[c]} ∪ X)) ∖ {[c]}) with ((cells s ∖ {[c]}) ∩ X)
      by set_solver.
    lia.
  - f_equal; [set_solver |]. do 3 f_equal. set_solver.
Qed.

Lemma without_safes_empty (s : Sentence) : without_safes ∅ s = s.
Proof. destruct s. unfold without_safes. simpl. f_equal. set_solver. Qed.

Lemma without_mines_empty (s : Sentence) : without_mines ∅ s = s.
Proof.
  destruct s as [X k]. unfold without_mines. simpl. f_equal; [set_solver |].
  rewrite intersection_empty_r_L, size_empty. lia.
Qed.

Lemma mark_safes_closed (l : list Cell) (st : MinesweeperAI) :
  MinesweeperAI.mark_safes l st
  = set_knowledge (without_safes (list_to_set l) <$> knowledge st)
                  (add_safes (list_to_set l) st).
Proof.
  unfold MinesweeperAI.mark_safes. revert st.
  induction l as [| c l IH]; intros st; simpl.
  - apply state_eq; simpl; try done; [set_solver |].
    rewrite <- (list_fmap_id (knowledge st)) at 1.
    apply list_fmap_ext. intros _ s _. by rewrite without_safes_empty.
  - rewrite IH. apply state_eq; simpl; try done; [set_solver |].
    rewrite <- list_fmap_compose. apply list_fmap_ext. intros _ s _. simpl.
    apply without_safes_mark_safe.
Qed.

Lemma mark_mines_closed (l : list Cell) (st : MinesweeperAI) :
  MinesweeperAI.mark_mines l st
  = set_knowledge (without_mines (list_to_set l) <$> knowledge st)
                  (add_mines (list_to_set l) st).
Proof.
  unfold MinesweeperAI.mark_mines. revert st.
  induction l as [| c l IH]; intros st; simpl.
  - apply state_eq; simpl; try done; [set_solver |].
    rewrite <- (list_fmap_id (knowledge st)) at 1.
    apply list_fmap_ext. intros _ s _. by rewrite without_mines_empty.
  - rewrite IH. apply state_eq; simpl; try done; [set_solver |].
    rewrite <- list_fmap_compose. apply list_fmap_ext. intros _ s _. simpl.
    apply without_mines_mark_mine.
Qed.

(** The order in which the cells of a set are visited is immaterial. *)
Lemma mark_safes_order (l l' : list Cell) (st : MinesweeperAI) :
  l ≡ₚ l' → MinesweeperAI.mark_safes l st = MinesweeperAI.mark_safes l' st.
Proof.
  intros Hp. rewrite !mark_safes_closed.
  by rewrite (list_to_set_perm_L l l' Hp).
Qed.

Lemma mark_mines_order (l l' : list Cell) (st : MinesweeperAI) :
  l ≡ₚ l' → MinesweeperAI.mark_mines l st = MinesweeperAI.mark_mines l' st.
Proof.
  intros Hp. rewrite !mark_mines_closed.
  by rewrite (list_to_set_perm_L l l' Hp).
Qed.

(** ** The extraction step in closed form *)

Lemma extract_body_spec (s : Sentence) (st : MinesweeperAI) (ch : bool) :
  extract_spec s st ch (MinesweeperAI.extract_body s (st, ch)).
Proof.
  unfold MinesweeperAI.extract_body.
  destruct (truthy (Sentence.known_safes s)) eqn:Hs;
    destruct (truthy (Sentence.known_mines s)) eqn:Hm; simpl.
  - apply truthy_true in Hs, Hm.
    unfold Sentence.known_safes, Sentence.known_mines in *.
    repeat case_decide; try done.
    assert (size (cells s) = 0%nat) as Hsz by lia.
    by apply size_empty_inv, leibniz_equiv in Hsz.
  - apply truthy_true in Hs. unfold Sentence.known_safes in *.
    case_decide as H0; [| done].
    rewrite mark_safes_closed, list_to_set_elements_L.
    replace (set_knowledge _ _)
      with (set_knowledge (without_safes (cells s) <$> knowledge st)
                          (add_safes (cells s) st)).
    + by apply extract_safes.
    + apply state_eq; simpl; try done. set_solver.
  - apply truthy_true in Hm. unfold Sentence.known_mines in *.
    case_decide as H0; [| done].
    rewrite mark_mines_closed, list_to_set_elements_L.
    replace (set_knowledge _ _)
      with (set_knowledge (without_mines (cells s) <$> knowledge st)
                          (add_mines (cells s) st)).
    + by apply extract_mines.
    + apply state_eq; simpl; try done. set_solver.
  - apply truthy_false in Hs, Hm. by apply extract_nothing.
Qed.

(** ** The subsumption step in closed form *)

Lemma combine_body_add (s1 s2 : Sentence) (K : list Sentence) (ch : bool) :
  s1 ≠ s2 → cells s1 ⊆ cells s2 →
  candidate s1 s2 ∉ K → cells (candidate s1 s2) ≠ ∅ →
  MinesweeperAI.combine_body s1 s2 (K, ch) = (K ++ [candidate s1 s2], true).
Proof.
  intros Hne Hsub Hnew Hcells. unfold MinesweeperAI.combine_body.
  apply neb_true in Hne. rewrite Hne. rewrite bool_decide_eq_true_2 by done.
  simpl. fold (candidate s1 s2).
  apply contains_false in Hnew. rewrite Hnew.
  apply truthy_true in Hcells. simpl in Hcells. by rewrite Hcells.
Qed.

Lemma combine_body_skip (s1 s2 : Sentence) (K : list Sentence) (ch : bool) :
  ¬ (s1 ≠ s2 ∧ cells s1 ⊆ cells s2
     ∧ candidate s1 s2 ∉ K ∧ cells (candidate s1 s2) ≠ ∅) →
  MinesweeperAI.combine_body s1 s2 (K, ch) = (K, ch).
Proof.
  intros Hno. unfold MinesweeperAI.combine_body.
  destruct (Sentence.neb s1 s2) eqn:Hne; [| done].
  case_bool_decide as Hsub; [| done].
  simpl. fold (candidate s1 s2).
  destruct (contains K (candidate s1 s2)) eqn:Hin; [done |].
  destruct (truthy (cells s2 ∖ cells s1)) eqn:Hc; [| done].
  destruct Hno. repeat split.
  - by apply neb_true.
  - done.
  - by apply contains_false.
  - by apply truthy_true.
Qed.

Lemma combine_body_cases (s1 s2 : Sentence) (K : list Sentence) (ch : bool) :
  (s1 ≠ s2 ∧ cells s1 ⊆ cells s2
   ∧ candidate s1 s2 ∉ K ∧ cells (candidate s1 s2) ≠ ∅
   ∧ MinesweeperAI.combine_body s1 s2 (K, ch) = (K ++ [candidate s1 s2], true))
  ∨ (¬ (s1 ≠ s2 ∧ cells s1 ⊆ cells s2
        ∧ candidate s1 s2 ∉ K ∧ cells (candidate s1 s2) ≠ ∅)
     ∧ MinesweeperAI.combine_body s1 s2 (K, ch) = (K, ch)).
Proof.
  destruct (decide (s1 ≠ s2 ∧ cells s1 ⊆ cells s2
                    ∧ candidate s1 s2 ∉ K ∧ cells (candidate s1 s2) ≠ ∅))
    as [(? & ? & ? & ?) | Hno].
  - left. repeat split; try done. by apply combine_body_add.
  - right. split; [done |]. by apply combine_body_skip.
Qed.

(** ** Every loop iteration applies one inference rule, or none *)

Lemma set_knowledge_same (st : MinesweeperAI) : set_knowledge (knowledge st) st = st.
Proof. by destruct st. Qed.

Lemma step_infers (c : config) :
  ai (MinesweeperAI.step c) = ai c ∨ infers (ai c) (ai (MinesweeperAI.step c)).
Proof.
  unfold MinesweeperAI.step.
  destruct (at_pc c) as [i | i j |]; [| | by left].
  - destruct (knowledge (ai c) !! i) as [s |] eqn:Hi; simpl.
    + apply list_elem_of_lookup_2 in Hi.
      destruct (extract_body_spec s (ai c) (changed c)); simpl.
      * right. by apply infers_safes.
      * right. by apply infers_mines.
      * by left.
    + right. apply infers_collect.
  - destruct (knowledge (ai c) !! i) as [s1 |] eqn:Hi; simpl.
    + destruct (knowledge (ai c) !! j) as [s2 |] eqn:Hj; simpl; [| by left].
      apply list_elem_of_lookup_2 in Hi, Hj.
      destruct (combine_body_cases s1 s2 (knowledge (ai c)) (changed c))
        as [(? & ? & ? & ? & ->) | (_ & ->)]; simpl.
      * right. by apply infers_combine.
      * left. apply set_knowledge_same.
    + destruct (changed c); by left.
Qed.

Lemma steps_infers (n : nat) (c : config) :
  rtc infers (ai c) (ai (steps n c)).
Proof.
  revert c. induction n as [| n IH]; intros c; simpl; [done |].
  destruct (step_infers c) as [Heq | Hinf].
  - rewrite <- Heq. apply IH.
  - eapply rtc_l; [done | apply IH].
Qed.

(** ** What the inference rules preserve *)

Lemma holds_without_safes (M X : gset Cell) (s : Sentence) :
  X ## M → holds M s → holds M (without_safes X s).
Proof.
  unfold holds, without_safes. simpl. intros HX ->. do 2 f_equal. set_solver.
Qed.

Lemma holds_without_mines (M X : gset Cell) (s : Sentence) :
  X ⊆ M → holds M s → holds M (without_mines X s).
Proof.
  unfold holds, without_mines. simpl. intros HX ->.
  assert (size (cells s ∩ M)
          = (size (cells s ∩ X) + size ((cells s ∖ X) ∩ M))%nat) as Hsz.
  { rewrite <- size_union by set_solver. f_equal.
    apply leibniz_equiv. intros x. split; [| set_solver].
    intros Hx. destruct (decide (x ∈ X)); set_solver. }
  lia.
Qed.

(** The fields that [update_knowledge] never writes, and the ones that only
    grow. *)
Lemma infers_frame (st st' : MinesweeperAI) :
  infers st st' →
  height st' = height st ∧ width st' = width st
  ∧ moves_made st' = moves_made st
  ∧ mines st ⊆ mines st' ∧ safes st ⊆ safes st'.
Proof. destruct 1; simpl; repeat split; set_solver. Qed.

Lemma infers_sound (M : gset Cell) (st st' : MinesweeperAI) :
  infers st st' → sound M st → sound M st'.
Proof.
  intros Hinf (Hm & Hs & HK).
  destruct Hinf as [st s Hin H0 Hne | st s Hin Hall Hne | st
                    | st s1 s2 H1 H2 Hneq Hsub Hnew Hne];
    repeat split; simpl; try done.
  - pose proof (holds_known_safes M s (HK s Hin)) as Hd.
    unfold Sentence.known_safes in Hd. rewrite decide_True in Hd by done.
    set_solver.
  - intros t (t0 & -> & Ht0)%list_elem_of_fmap.
    apply holds_without_safes; [| by apply HK].
    pose proof (holds_known_safes M s (HK s Hin)) as Hd.
    unfold Sentence.known_safes in Hd. by rewrite decide_True in Hd.
  - pose proof (holds_known_mines M s (HK s Hin)) as Hd.
    unfold Sentence.known_mines in Hd. rewrite decide_True in Hd by done.
    set_solver.
  - intros t (t0 & -> & Ht0)%list_elem_of_fmap.
    apply holds_without_mines; [| by apply HK].
    pose proof (holds_known_mines M s (HK s Hin)) as Hd.
    unfold Sentence.known_mines in Hd. by rewrite decide_True in Hd.
  - intros t Ht. apply HK. unfold MinesweeperAI.collect in Ht.
    by apply list_elem_of_filter in Ht as [_ ?].
  - intros t [Ht | ->%list_elem_of_singleton]%elem_of_app; [by apply HK |].
    apply holds_difference; auto.
Qed.

Lemma infers_tidy (st st' : MinesweeperAI) :
  infers st st' → tidy st → tidy st'.
Proof.
  unfold tidy. intros Hinf HK.
  destruct Hinf as [st s Hin H0 Hne | st s Hin Hall Hne | st
                    | st s1 s2 H1 H2 Hneq Hsub Hnew Hne]; simpl.
  - intros t (t0 & -> & Ht0)%list_elem_of_fmap. simpl.
    specialize (HK t0 Ht0). set_solver.
  - intros t (t0 & -> & Ht0)%list_elem_of_fmap. simpl.
    specialize (HK t0 Ht0). set_solver.
  - intros t Ht. apply HK. unfold MinesweeperAI.collect in Ht.
    by apply list_elem_of_filter in Ht as [_ ?].
  - intros t [Ht | ->%list_elem_of_singleton]%elem_of_app; [by apply HK |].
    simpl. specialize (HK s2 H2). set_solver.
Qed.

(** Sentences only ever lose cells: no rule brings a cell into the
    knowledge that was not in it. *)
Lemma elem_of_universe (K : list Sentence) (x : Cell) :
  x ∈ universe K ↔ ∃ s, s ∈ K ∧ x ∈ cells s.
Proof.
  unfold universe. rewrite elem_of_union_list. split.
  - intros (X & (s & -> & Hs)%list_elem_of_fmap & Hx). eauto.
  - intros (s & Hs & Hx). exists (cells s). split; [| done].
    by apply list_elem_of_fmap_2.
Qed.

Lemma infers_universe (st st' : MinesweeperAI) :
  infers st st' → universe (knowledge st') ⊆ universe (knowledge st).
Proof.
  intros Hinf x. rewrite !elem_of_universe.
  destruct Hinf as [st s Hin H0 Hne | st s Hin Hall Hne | st
                    | st s1 s2 H1 H2 Hneq Hsub Hnew Hne]; simpl.
  - intros (t & (t0 & -> & Ht0)%list_elem_of_fmap & Hx). simpl in Hx.
    exists t0. set_solver.
  - intros (t & (t0 & -> & Ht0)%list_elem_of_fmap & Hx). simpl in Hx.
    exists t0. set_solver.
  - intros (t & Ht & Hx). exists t. split; [| done].
    unfold MinesweeperAI.collect in Ht.
    by apply list_elem_of_filter in Ht as [_ ?].
  - intros (t & [Ht | ->%list_elem_of_singleton]%elem_of_app & Hx).
    + by exists t.
    + exists s2. simpl in Hx. set_solver.
Qed.

(** Invariants of the rules are invariants of runs. *)
Lemma steps_invariant (P : MinesweeperAI → Prop) :
  (∀ st st', infers st st' → P st → P st') →
  ∀ n c, P (ai c) → P (ai (steps n c)).
Proof.
  intros HP n c Hc. induction (steps_infers n c) as [| st1 st2 st3 H12 _ IH];
    [done |]. apply IH. by eapply HP.
Qed.

Lemma steps_sound (M : gset Cell) (n : nat) (c : config) :
  sound M (ai c) → sound M (ai (steps n c)).
Proof. apply steps_invariant. intros st st'. apply infers_sound. Qed.

Lemma steps_tidy (n : nat) (c : config) : tidy (ai c) → tidy (ai (steps n c)).
Proof. apply steps_invariant. apply infers_tidy. Qed.

Lemma steps_frame (n : nat) (c : config) :
  height (ai (steps n c)) = height (ai c)
  ∧ width (ai (steps n c)) = width (ai c)
  ∧ moves_made (ai (steps n c)) = moves_made (ai c)
  ∧ mines (ai c) ⊆ mines (ai (steps n c))
  ∧ safes (ai c) ⊆ safes (ai (steps n c)).
Proof.
  induction (steps_infers n c) as [| st1 st2 st3 H12 _ IH]; [done |].
  apply infers_frame in H12 as (Hh & Hw & Hmv & ? & ?).
  destruct IH as (-> & -> & -> & ? & ?). repeat split; try done; set_solver.
Qed.

(** ** Runs: fuel against numbers of iterations *)

Lemma steps_halted (n : nat) (c : config) :
  at_pc c = Halted → steps n c = c.
Proof.
  intros Hc. induction n as [| n IH]; simpl; [done |].
  unfold MinesweeperAI.step. by rewrite Hc.
Qed.

Lemma steps_add (n m : nat) (c : config) :
  steps (n + m) c = steps m (steps n c).
Proof. revert c. induction n as [| n IH]; intros c; simpl; [done | apply IH]. Qed.

Lemma run_steps (fuel : nat) (c : config) (st : MinesweeperAI) :
  MinesweeperAI.run fuel c = Some st →
  at_pc (steps fuel c) = Halted ∧ ai (steps fuel c) = st.
Proof.
  revert c. induction fuel as [| fuel IH]; intros c; simpl.
  - destruct (at_pc c) eqn:Hc; try done. by intros [= <-].
  - destruct (at_pc c) eqn:Hc; try (by apply IH).
    intros [= <-]. rewrite (steps_halted fuel (MinesweeperAI.step c)).
    + unfold MinesweeperAI.step. by rewrite Hc.
    + unfold MinesweeperAI.step. by rewrite Hc.
Qed.

Lemma steps_run (n : nat) (c : config) :
  at_pc (steps n c) = Halted →
  MinesweeperAI.run n c = Some (ai (steps n c)).
Proof.
  revert c. induction n as [| n IH]; intros c; simpl.
  - by intros ->.
  - intros Hn. destruct (at_pc c) eqn:Hc; try by apply IH.
    f_equal. rewrite (steps_halted n (MinesweeperAI.step c)).
    + unfold MinesweeperAI.step. by rewrite Hc.
    + unfold MinesweeperAI.step. by rewrite Hc.
Qed.

Lemma steps_stay_halted (n m : nat) (c : config) :
  (n ≤ m)%nat → at_pc (steps n c) = Halted → steps m c = steps n c.
Proof.
  intros Hle Hn. replace m with (n + (m - n))%nat by lia.
  rewrite steps_add. by apply steps_halted.
Qed.

Lemma run_mono (fuel fuel' : nat) (c : config) (st : MinesweeperAI) :
  (fuel ≤ fuel')%nat →
  MinesweeperAI.run fuel c = Some st → MinesweeperAI.run fuel' c = Some st.
Proof.
  intros Hle [Hh <-]%run_steps.
  rewrite <- (steps_stay_halted fuel fuel' c Hle Hh).
  apply steps_run. by rewrite (steps_stay_halted fuel fuel' c Hle Hh).
Qed.

(** An invariant of the rules holds when [update_knowledge] returns. *)
Lemma update_knowledge_invariant (P : MinesweeperAI → Prop) fuel st st' :
  (∀ st st', infers st st' → P st → P st') →
  MinesweeperAI.update_knowledge fuel st = Some st' → P st → P st'.
Proof.
  intros HP [_ <-]%run_steps Hst. by apply steps_invariant.
Qed.

(** ** Neighbours *)

Lemma elem_of_range (lo hi k : Z) : k ∈ range lo hi ↔ lo <= k < hi.
Proof. unfold range. rewrite elem_of_seqZ. lia. Qed.

Lemma elem_of_get_neighbors (st : MinesweeperAI) (cell n : Cell) :
  n ∈ MinesweeperAI.get_neighbors st cell ↔ in_board st n ∧ adjacent cell n.
Proof.
  destruct cell as [i j], n as [x y].
  unfold MinesweeperAI.get_neighbors, in_board, adjacent. simpl.
  rewrite list_elem_of_bind. split.
  - intros (x' & (y' & Hy & Hy')%list_elem_of_bind & Hx').
    apply elem_of_range in Hx', Hy'.
    destruct (bool_decide (0 <= x' < height st)) eqn:Hbx; [| by inversion Hy].
    destruct (bool_decide (0 <= y' < width st)) eqn:Hby; [| by inversion Hy].
    destruct (bool_decide ((x', y') ≠ (i, j))) eqn:Hne; [| by inversion Hy].
    simpl in Hy. apply list_elem_of_singleton in Hy as [= -> ->].
    apply bool_decide_eq_true in Hbx, Hby, Hne.
    repeat split; try lia. done.
  - intros ((Hx & Hy) & Hax & Hay & Hne).
    exists x. split; [| apply elem_of_range; lia].
    apply list_elem_of_bind. exists y. split; [| apply elem_of_range; lia].
    rewrite !bool_decide_eq_true_2 by done. simpl. by apply list_elem_of_singleton.
Qed.

Lemma NoDup_get_neighbors (st : MinesweeperAI) (cell : Cell) :
  NoDup (MinesweeperAI.get_neighbors st cell).
Proof.
  destruct cell as [i j]. unfold MinesweeperAI.get_neighbors.
  apply NoDup_bind; [| | apply NoDup_seqZ].
  - intros x1 x2 [x y] _ _ (y1 & Hy1 & _)%list_elem_of_bind
      (y2 & Hy2 & _)%list_elem_of_bind.
    repeat case_match; try (by inversion Hy1); try (by inversion Hy2).
    apply list_elem_of_singleton in Hy1, Hy2. congruence.
  - intros x _. apply NoDup_bind; [| | apply NoDup_seqZ].
    + intros y1 y2 [x' y] _ _ Hy1 Hy2.
      repeat case_match; try (by inversion Hy1); try (by inversion Hy2).
      apply list_elem_of_singleton in Hy1, Hy2. congruence.
    + intros y _. case_match; [apply NoDup_singleton | apply NoDup_nil_2].
Qed.

Lemma length_get_neighbors (st : MinesweeperAI) (cell : Cell) :
  (length (MinesweeperAI.get_neighbors st cell) ≤ 8)%nat.
Proof.
  destruct cell as [i j].
  pose (around := [(i - 1, j - 1); (i - 1, j); (i - 1, j + 1);
                   (i, j - 1); (i, j + 1);
                   (i + 1, j - 1); (i + 1, j); (i + 1, j + 1)]).
  change 8%nat with (length around).
  apply submseteq_length, NoDup_submseteq; [apply NoDup_get_neighbors |].
  intros [x y] (_ & Hx & Hy & Hne)%elem_of_get_neighbors. simpl in *.
  assert (x = i - 1 ∨ x = i ∨ x = i + 1) as Hxs by lia.
  assert (y = j - 1 ∨ y = j ∨ y = j + 1) as Hys by lia.
  unfold around. rewrite !elem_of_cons.
  destruct Hxs as [-> | [-> | ->]], Hys as [-> | [-> | ->]]; tauto.
Qed.

(** ** Recording an observation *)

Lemma foldl_sort_neighbor (st : MinesweeperAI) (l : list Cell)
    (u : gset Cell) (k : Z) :
  foldl (MinesweeperAI.sort_neighbor st) (u, k) l
  = (u ∪ list_to_set (filter (λ n, n ∉ safes st ∧ n ∉ mines st) l),
     k - Z.of_nat (length (filter (λ n, n ∉ safes st ∧ n ∈ mines st) l))).
Proof.
  revert u k. induction l as [| n l IH]; intros u k; simpl.
  - f_equal; [set_solver | lia].
  - rewrite !filter_cons. unfold MinesweeperAI.sort_neighbor at 2.
    destruct (decide (n ∈ safes st)) as [Hs | Hs].
    + rewrite !decide_False by tauto. apply IH.
    + destruct (decide (n ∈ mines st)) as [Hm | Hm]; simpl.
      * rewrite decide_False, decide_True by tauto. rewrite IH. simpl.
        f_equal. lia.
      * rewrite decide_True, decide_False by tauto. rewrite IH.
        rewrite list_to_set_cons. f_equal. set_solver.
Qed.

Lemma record_observation_closed (st : MinesweeperAI) (cell : Cell) (k : Z) :
  MinesweeperAI.record_observation st cell k
  = let K := Sentence.mark_safe cell <$> knowledge st in
    let new_sentence :=
      {| cells := unknown_neighbors st cell;
         count := k - Z.of_nat (size (known_mine_neighbors st cell)) |} in
    {| height := height st; width := width st;
       moves_made := moves_made st ∪ {[cell]};
       mines := mines st;
       safes := safes st ∪ {[cell]};
       knowledge := if decide (unknown_neighbors st cell = ∅) then K
                    else K ++ [new_sentence] |}.
Proof.
  unfold MinesweeperAI.record_observation.
  set (st1 := MinesweeperAI.mark_safe cell (add_move cell st)).
  rewrite foldl_sort_neighbor. simpl.
  assert (MinesweeperAI.get_neighbors st1 cell
          = MinesweeperAI.get_neighbors st cell) as HN by done.
  rewrite HN.
  assert (∅ ∪ list_to_set
            (filter (λ n, n ∉ safes st ∪ {[cell]} ∧ n ∉ mines st)
                    (MinesweeperAI.get_neighbors st cell))
          = unknown_neighbors st cell) as Hu.
  { unfold unknown_neighbors. apply leibniz_equiv. intros x.
    rewrite elem_of_union, elem_of_list_to_set, list_elem_of_filter.
    rewrite !elem_of_difference, elem_of_list_to_set. simpl.
    set_solver. }
  assert (length (filter (λ n, n ∉ safes st ∪ {[cell]} ∧ n ∈ mines st)
                         (MinesweeperAI.get_neighbors st cell))
          = size (known_mine_neighbors st cell)) as Hk.
  { unfold known_mine_neighbors.
    rewrite <- (size_list_to_set (C := gset Cell))
      by apply NoDup_filter, NoDup_get_neighbors.
    f_equal. apply leibniz_equiv. intros x.
    rewrite elem_of_list_to_set, list_elem_of_filter.
    rewrite elem_of_difference, elem_of_intersection, elem_of_list_to_set.
    simpl. set_solver. }
  rewrite Hu, Hk. unfold truthy.
  destruct (decide (unknown_neighbors st cell = ∅)) as [He | Hne].
  - rewrite bool_decide_eq_true_2 by done. done.
  - rewrite bool_decide_eq_false_2 by done. done.
Qed.

(** ** The state in which [update_knowledge] returns *)

Lemma productive_cases (s1 s2 : Sentence) (K : list Sentence) (ch : bool) :
  (productive K s1 s2
   ∧ MinesweeperAI.combine_body s1 s2 (K, ch) = (K ++ [candidate s1 s2], true))
  ∨ (¬ productive K s1 s2
     ∧ MinesweeperAI.combine_body s1 s2 (K, ch) = (K, ch)).
Proof.
  unfold productive.
  destruct (combine_body_cases s1 s2 K ch) as [(? & ? & ? & ? & ?) | [? ?]];
    [left | right]; done.
Qed.

Lemma quiet_step (c : config) : quiet c → quiet (MinesweeperAI.step c).
Proof.
  unfold quiet at 1, MinesweeperAI.step.
  destruct (at_pc c) as [i | i j |] eqn:Hpc.
  - destruct (knowledge (ai c) !! i) as [s |] eqn:Hi.
    + destruct (extract_body_spec s (ai c) (changed c)) as [| | Hs Hm];
        unfold quiet; simpl; try done.
      intros Hq Hch i' s' Hlt Hi'.
      destruct (decide (i' = i)) as [-> | Hne].
      * rewrite Hi in Hi'. by injection Hi' as <-.
      * apply (Hq Hch i'); [lia | done].
    + unfold quiet; simpl. intros Hq Hch. split.
      * intros s Hs. unfold MinesweeperAI.collect in Hs.
        apply list_elem_of_filter in Hs as [Hne Hs].
        apply truthy_true in Hne.
        apply list_elem_of_lookup_1 in Hs as [i' Hi'].
        assert (i' < i)%nat as Hlt.
        { apply lookup_lt_Some in Hi'. apply lookup_ge_None in Hi. lia. }
        destruct (Hq Hch i' s Hlt Hi'). done.
      * intros i' j' s1 s2 Hlt. lia.
  - destruct (knowledge (ai c) !! i) as [s1 |] eqn:Hi.
    + destruct (knowledge (ai c) !! j) as [s2 |] eqn:Hj.
      * destruct (productive_cases s1 s2 (knowledge (ai c)) (changed c))
          as [[_ ->] | [Hno ->]]; unfold quiet; simpl; [done |].
        intros Hq Hch. destruct (Hq Hch) as [Hall Hpairs]. split; [done |].
        intros i' j' t1 t2 Hlt Hi' Hj'.
        destruct (decide (i' = i ∧ j' = j)) as [[-> ->] | Hne].
        -- rewrite Hi in Hi'. rewrite Hj in Hj'.
           injection Hi' as <-. by injection Hj' as <-.
        -- apply (Hpairs i' j'); [lia | done | done].
      * unfold quiet; simpl. intros Hq Hch.
        destruct (Hq Hch) as [Hall Hpairs]. split; [done |].
        intros i' j' t1 t2 Hlt Hi' Hj'. apply (Hpairs i' j'); try done.
        apply lookup_lt_Some in Hj'. apply lookup_ge_None in Hj. lia.
    + destruct (changed c) eqn:Hch; unfold quiet; simpl.
      * intros _ _ i' s Hlt. lia.
      * intros Hq. destruct (Hq eq_refl) as [Hall Hpairs]. split.
        -- intros s Hs. destruct (Hall s Hs) as (Hne & Hsafe & Hmine).
           unfold Sentence.known_safes, Sentence.known_mines in *.
           repeat case_decide; done.
        -- intros s1 s2 [i' Hi']%list_elem_of_lookup_1
             [j' Hj']%list_elem_of_lookup_1.
           apply (Hpairs i' j'); try done.
           apply lookup_lt_Some in Hi'. apply lookup_ge_None in Hi. lia.
  - unfold quiet. by rewrite Hpc.
Qed.

Lemma quiet_steps (n : nat) (c : config) : quiet c → quiet (steps n c).
Proof.
  revert c. induction n as [| n IH]; intros c Hq; simpl; [done |].
  by apply IH, quiet_step.
Qed.

Lemma quiet_enter (st : MinesweeperAI) : quiet (MinesweeperAI.enter st).
Proof. unfold quiet. simpl. intros _ i' s Hlt. lia. Qed.

Lemma update_knowledge_stable (fuel : nat) (st st' : MinesweeperAI) :
  MinesweeperAI.update_knowledge fuel st = Some st' → stable st'.
Proof.
  intros [Hh <-]%run_steps.
  pose proof (quiet_steps fuel _ (quiet_enter st)) as Hq.
  unfold quiet in Hq. by rewrite Hh in Hq.
Qed.

(** ** The pairs visited in the last round *)

Lemma steps_S (n : nat) (c : config) :
  steps (S n) c = MinesweeperAI.step (steps n c).
Proof. replace (S n) with (n + 1)%nat by lia. by rewrite steps_add. Qed.

Lemma config_eta (c : config) :
  c = {| ai := ai c; changed := changed c; at_pc := at_pc c |}.
Proof. by destruct c. Qed.

(** In a round in which nothing changed so far, the nested loops have
    visited every pair of positions before the program point, in the
    present state; when the [while] loop is left, these are all pairs of
    positions of the knowledge. *)
Lemma round_visits (c0 : config) (n : nat) :
  at_pc c0 = Extract 0 →
  match at_pc (steps n c0) with
  | Extract _ => True
  | Combine i j =>
      changed (steps n c0) = false →
      ∀ i' j', (i' < i ∨ (i' = i ∧ j' < j))%nat →
               (j' < length (knowledge (ai (steps n c0))))%nat →
               ∃ n', (n' < n)%nat
                     ∧ steps n' c0 = {| ai := ai (steps n c0); changed := false;
                                        at_pc := Combine i' j' |}
  | Halted =>
      ∀ i' j', (i' < length (knowledge (ai (steps n c0))))%nat →
               (j' < length (knowledge (ai (steps n c0))))%nat →
               ∃ n', (n' < n)%nat
                     ∧ steps n' c0 = {| ai := ai (steps n c0); changed := false;
                                        at_pc := Combine i' j' |}
  end.
Proof.
  intros H0. induction n as [| n IH].
  - simpl. by rewrite H0.
  - rewrite steps_S. remember (steps n c0) as c eqn:Hc.
    unfold MinesweeperAI.step.
    destruct (at_pc c) as [i | i j |] eqn:Hpc.
    + destruct (knowledge (ai c) !! i); simpl; [done |].
      intros _ i' j' Hlt. lia.
    + destruct (knowledge (ai c) !! i) as [s1 |] eqn:Hi.
      * destruct (knowledge (ai c) !! j) as [s2 |] eqn:Hj.
        -- destruct (productive_cases s1 s2 (knowledge (ai c)) (changed c))
             as [[_ ->] | [_ ->]]; simpl; [done |].
           rewrite set_knowledge_same. intros Hch i' j' Hlt Hj'.
           destruct (decide (i' = i ∧ j' = j)) as [[-> ->] | Hne].
           ++ exists n. split; [lia |]. rewrite <- Hc.
              rewrite (config_eta c) at 1. by rewrite Hch, Hpc.
           ++ destruct (IH Hch i' j') as (n' & Hlt' & Hn'); [lia | done |].
              exists n'. split; [lia | done].
        -- simpl. intros Hch i' j' Hlt Hj'.
           apply lookup_ge_None in Hj.
           destruct (IH Hch i' j') as (n' & Hlt' & Hn'); [lia | done |].
           exists n'. split; [lia | done].
      * apply lookup_ge_None in Hi.
        destruct (changed c) eqn:Hch; simpl; [done |].
        intros i' j' Hi' Hj'.
        destruct (IH eq_refl i' j') as (n' & Hlt' & Hn'); [lia | done |].
        exists n'. split; [lia | done].
    + rewrite Hpc. intros i' j' Hi' Hj'.
      destruct (IH i' j') as (n' & Hlt' & Hn'); [done | done |].
      exists n'. split; [lia | done].
Qed.

(** When [update_knowledge] returns, its last round has visited every
    ordered pair of positions of the returned knowledge. *)
Lemma update_knowledge_visits (fuel : nat) (st st' : MinesweeperAI)
    (i j : nat) :
  MinesweeperAI.update_knowledge fuel st = Some st' →
  (i < length (knowledge st'))%nat → (j < length (knowledge st'))%nat →
  ∃ n, (n < fuel)%nat
       ∧ steps n (MinesweeperAI.enter st)
         = {| ai := st'; changed := false; at_pc := Combine i j |}.
Proof.
  intros [Hh <-]%run_steps Hi Hj.
  pose proof (round_visits (MinesweeperAI.enter st) fuel eq_refl) as Hv.
  rewrite Hh in Hv. by apply Hv.
Qed.

(** ** What the calls of the interface preserve *)

Lemma mark_mine_sound (M : gset Cell) (c : Cell) (st : MinesweeperAI) :
  c ∈ M → sound M st → sound M (MinesweeperAI.mark_mine c st).
Proof.
  intros Hc (Hm & Hs & HK). repeat split; simpl; [set_solver | done |].
  intros s (s0 & -> & Hs0)%list_elem_of_fmap. apply holds_mark_mine; auto.
Qed.

Lemma mark_safe_sound (M : gset Cell) (c : Cell) (st : MinesweeperAI) :
  c ∉ M → sound M st → sound M (MinesweeperAI.mark_safe c st).
Proof.
  intros Hc (Hm & Hs & HK). repeat split; simpl; [done | set_solver |].
  intros s (s0 & -> & Hs0)%list_elem_of_fmap. apply holds_mark_safe; auto.
Qed.

Lemma record_observation_sound (M : gset Cell) (st : MinesweeperAI)
    (cell : Cell) (k : Z) :
  cell ∉ M → k = nearby_mines M st cell →
  sound M st → sound M (MinesweeperAI.record_observation st cell k).
Proof.
  intros Hc -> (Hm & Hs & HK). rewrite record_observation_closed.
  repeat split; simpl; [done | set_solver |].
  assert (∀ s, s ∈ Sentence.mark_safe cell <$> knowledge st → holds M s) as HK'.
  { intros s (s0 & -> & Hs0)%list_elem_of_fmap. apply holds_mark_safe; auto. }
  case_decide as Hu; [done |].
  intros s [Hin | ->%list_elem_of_singleton]%elem_of_app; [by apply HK' |].
  unfold holds, nearby_mines. simpl.
  set (N := list_to_set (MinesweeperAI.get_neighbors st cell) : gset Cell).
  assert (size (N ∩ M)
          = (size (known_mine_neighbors st cell)
             + size (unknown_neighbors st cell ∩ M))%nat) as Hsz.
  { rewrite <- size_union.
    - f_equal. unfold known_mine_neighbors, unknown_neighbors. fold N.
      apply leibniz_equiv. intros x. split; [| set_solver].
      intros Hx. destruct (decide (x ∈ mines st)); set_solver.
    - unfold known_mine_neighbors, unknown_neighbors. set_solver. }
  lia.
Qed.

Lemma mark_mine_tidy (c : Cell) (st : MinesweeperAI) :
  tidy st → tidy (MinesweeperAI.mark_mine c st).
Proof.
  unfold tidy. simpl. intros HK s (s0 & -> & Hs0)%list_elem_of_fmap.
  rewrite cells_mark_mine. specialize (HK s0 Hs0). set_solver.
Qed.

Lemma mark_safe_tidy (c : Cell) (st : MinesweeperAI) :
  tidy st → tidy (MinesweeperAI.mark_safe c st).
Proof.
  unfold tidy. simpl. intros HK s (s0 & -> & Hs0)%list_elem_of_fmap.
  rewrite cells_mark_safe. specialize (HK s0 Hs0). set_solver.
Qed.

Lemma record_observation_tidy (st : MinesweeperAI) (cell : Cell) (k : Z) :
  tidy st → tidy (MinesweeperAI.record_observation st cell k).
Proof.
  unfold tidy. intros HK. rewrite record_observation_closed. simpl.
  assert (∀ s, s ∈ Sentence.mark_safe cell <$> knowledge st →
               cells s ## mines st ∪ (safes st ∪ {[cell]})) as HK'.
  { intros s (s0 & -> & Hs0)%list_elem_of_fmap.
    rewrite cells_mark_safe. specialize (HK s0 Hs0). set_solver. }
  case_decide as Hu; [done |].
  intros s [Hin | ->%list_elem_of_singleton]%elem_of_app; [by apply HK' |].
  simpl. unfold unknown_neighbors. set_solver.
Qed.

Lemma infers_on_board (st st' : MinesweeperAI) :
  infers st st' → on_board st → on_board st'.
Proof.
  unfold on_board. intros Hinf HK s c Hs Hc.
  assert (c ∈ universe (knowledge st)) as (s0 & Hs0 & Hc0)%elem_of_universe.
  { apply (infers_universe _ _ Hinf), elem_of_universe. eauto. }
  apply infers_frame in Hinf as (Hh & Hw & _).
  unfold in_board. rewrite Hh, Hw. by apply (HK s0).
Qed.

Lemma mark_mine_on_board (c : Cell) (st : MinesweeperAI) :
  on_board st → on_board (MinesweeperAI.mark_mine c st).
Proof.
  unfold on_board. simpl. intros HK s x (s0 & -> & Hs0)%list_elem_of_fmap.
  rewrite cells_mark_mine. intros Hx. apply (HK s0); set_solver.
Qed.

Lemma mark_safe_on_board (c : Cell) (st : MinesweeperAI) :
  on_board st → on_board (MinesweeperAI.mark_safe c st).
Proof.
  unfold on_board. simpl. intros HK s x (s0 & -> & Hs0)%list_elem_of_fmap.
  rewrite cells_mark_safe. intros Hx. apply (HK s0); set_solver.
Qed.

Lemma record_observation_on_board (st : MinesweeperAI) (cell : Cell) (k : Z) :
  on_board st → on_board (MinesweeperAI.record_observation st cell k).
Proof.
  unfold on_board. intros HK. rewrite record_observation_closed. simpl.
  assert (∀ s x, s ∈ Sentence.mark_safe cell <$> knowledge st →
                 x ∈ cells s → in_board st x) as HK'.
  { intros s x (s0 & -> & Hs0)%list_elem_of_fmap.
    rewrite cells_mark_safe. intros Hx. apply (HK s0); set_solver. }
  case_decide as Hu; [done |].
  intros s x [Hin | ->%list_elem_of_singleton]%elem_of_app;
    [by apply HK' |].
  simpl. unfold unknown_neighbors.
  rewrite !elem_of_difference, elem_of_list_to_set, elem_of_get_neighbors.
  tauto.
Qed.

(** ** Invariants of the reachable states *)

Lemma perform_invariant (P : MinesweeperAI → Prop) (ok : MinesweeperAI → call → Prop) :
  (∀ st st', infers st st' → P st → P st') →
  (∀ st cell k, ok st (AddKnowledge cell k) → P st →
                P (MinesweeperAI.record_observation st cell k)) →
  (∀ st cell, ok st (MarkMine cell) → P st →
              P (MinesweeperAI.mark_mine cell st)) →
  (∀ st cell, ok st (MarkSafe cell) → P st →
              P (MinesweeperAI.mark_safe cell st)) →
  ∀ fuel st o st', ok st o → perform fuel st o = Some st' → P st → P st'.
Proof.
  intros Hinf Hadd Hmine Hsafe fuel st o st' Hok Hrun Hst.
  destruct o as [cell k | cell | cell | | draws]; simpl in Hrun.
  - unfold MinesweeperAI.add_knowledge in Hrun.
    eapply update_knowledge_invariant; [done | done |]. by apply Hadd.
  - injection Hrun as <-. by apply Hmine.
  - injection Hrun as <-. by apply Hsafe.
  - by injection Hrun as <-.
  - by injection Hrun as <-.
Qed.

Lemma reachable_invariant (P : MinesweeperAI → Prop) (ok : MinesweeperAI → call → Prop)
    (h w : Z) :
  P (MinesweeperAI.init h w) →
  (∀ st st', infers st st' → P st → P st') →
  (∀ st cell k, ok st (AddKnowledge cell k) → P st →
                P (MinesweeperAI.record_observation st cell k)) →
  (∀ st cell, ok st (MarkMine cell) → P st →
              P (MinesweeperAI.mark_mine cell st)) →
  (∀ st cell, ok st (MarkSafe cell) → P st →
              P (MinesweeperAI.mark_safe cell st)) →
  ∀ st, reachable ok h w st → P st.
Proof.
  intros Hinit Hinf Hadd Hmine Hsafe st Hreach.
  induction Hreach as [| st o fuel st' _ IH Hok Hrun]; [done |].
  by eapply (perform_invariant P ok).
Qed.

Lemma reachable_tidy ok h w st : reachable ok h w st → tidy st.
Proof.
  apply reachable_invariant.
  - intros s Hs. by apply elem_of_nil in Hs.
  - apply infers_tidy.
  - intros. by apply record_observation_tidy.
  - intros. by apply mark_mine_tidy.
  - intros. by apply mark_safe_tidy.
Qed.

Lemma reachable_on_board ok h w st : reachable ok h w st → on_board st.
Proof.
  apply reachable_invariant.
  - intros s c Hs. by apply elem_of_nil in Hs.
  - apply infers_on_board.
  - intros. by apply record_observation_on_board.
  - intros. by apply mark_mine_on_board.
  - intros. by apply mark_safe_on_board.
Qed.

Lemma reachable_sound M h w st : reachable (truthful M) h w st → sound M st.
Proof.
  apply reachable_invariant.
  - repeat split; simpl; [set_solver | set_solver |].
    intros s Hs. by apply elem_of_nil in Hs.
  - intros st0 st'. apply infers_sound.
  - intros st0 cell k [Hc Hk]. by apply record_observation_sound.
  - intros st0 cell Hc. by apply mark_mine_sound.
  - intros st0 cell Hc. by apply mark_safe_sound.
Qed.

Lemma reachable_size ok h w st :
  reachable ok h w st → height st = h ∧ width st = w.
Proof.
  apply (reachable_invariant (λ st, height st = h ∧ width st = w)).
  - done.
  - intros st0 st' (-> & -> & _)%infers_frame. done.
  - intros st0 cell k _. by rewrite record_observation_closed.
  - done.
  - done.
Qed.

(** ** Calls that do not contradict what is known *)

(** The rules keep the known mines apart from the known safe cells, as long
    as no sentence mentions a settled cell. *)
Lemma infers_disjoint (st st' : MinesweeperAI) :
  infers st st' →
  mines st ## safes st ∧ tidy st → mines st' ## safes st' ∧ tidy st'.
Proof.
  intros Hinf [Hd Ht]. split; [| by apply (infers_tidy st)].
  destruct Hinf as [st s Hin _ _ | st s Hin _ _ | st | st s1 s2 _ _ _ _ _ _];
    simpl; try done.
  - specialize (Ht s Hin). set_solver.
  - specialize (Ht s Hin). set_solver.
Qed.

Lemma reachable_disjoint (h w : Z) (st : MinesweeperAI) :
  reachable uncontradicted h w st → mines st ## safes st.
Proof.
  intros Hr.
  apply (reachable_invariant (λ st, mines st ## safes st ∧ tidy st)
           uncontradicted h w) in Hr; [by destruct Hr | | | | |].
  - split; [simpl; set_solver |]. intros s Hs. by apply elem_of_nil in Hs.
  - apply infers_disjoint.
  - intros st0 cell k Hok [Hd Ht]. split; [| by apply record_observation_tidy].
    rewrite record_observation_closed. simpl in *. set_solver.
  - intros st0 cell Hok [Hd Ht]. split; [| by apply mark_mine_tidy].
    simpl in *. set_solver.
  - intros st0 cell Hok [Hd Ht]. split; [| by apply mark_safe_tidy].
    simpl in *. set_solver.
Qed.

(** A call that goes against what is known leaves a cell that is both a
    known mine and a known safe cell. *)
Lemma contradicted_overlap (fuel : nat) (st st' : MinesweeperAI) (o : call) :
  ¬ uncontradicted st o → perform fuel st o = Some st' →
  ∃ c, c ∈ mines st' ∧ c ∈ safes st'.
Proof.
  intros Hno Hrun. destruct o as [cell k | cell | cell | | draws]; simpl in *.
  - apply dec_stable in Hno. exists cell.
    unfold MinesweeperAI.add_knowledge in Hrun.
    apply (update_knowledge_invariant
             (λ s, cell ∈ mines s ∧ cell ∈ safes s) _ _ _) in Hrun; [done | |].
    + intros s s' (_ & _ & _ & Hm & Hs)%infers_frame [? ?]. set_solver.
    + rewrite record_observation_closed. simpl. set_solver.
  - apply dec_stable in Hno. injection Hrun as <-. exists cell. simpl.
    set_solver.
  - apply dec_stable in Hno. injection Hrun as <-. exists cell. simpl.
    set_solver.
  - done.
  - done.
Qed.

(** Calls that tell the truth about one mine assignment never contradict
    what is known. *)
Lemma truthful_uncontradicted (M : gset Cell) (h w : Z) (st : MinesweeperAI) :
  reachable (truthful M) h w st → reachable uncontradicted h w st.
Proof.
  induction 1 as [| st o fuel st' Hr IH Ho Hrun]; [apply reachable_init |].
  apply (reachable_call _ h w st o fuel); [done | | done].
  apply reachable_sound in Hr as (Hm & Hs & _).
  destruct o as [cell k | cell | cell | | draws]; simpl in *; try done.
  - destruct Ho. set_solver.
  - set_solver.
  - set_solver.
Qed.

(** ** Termination of [update_knowledge] on truthful knowledge *)

Lemma elem_of_powerset (l : list Cell) (X : gset Cell) :
  X ⊆ list_to_set l → X ∈ powerset l.
Proof.
  revert X. induction l as [| x l IH]; intros X HX; simpl.
  - apply elem_of_singleton. set_solver.
  - apply elem_of_union. destruct (decide (x ∈ X)) as [Hx | Hx].
    + right. apply elem_of_map. exists (X ∖ {[x]}). split.
      * apply leibniz_equiv. intros y. destruct (decide (y = x)); set_solver.
      * apply IH. set_solver.
    + left. apply IH. set_solver.
Qed.

Lemma elem_of_shapes (K : list Sentence) (X : gset Cell) :
  X ∈ shapes K ↔ ∃ s, s ∈ K ∧ cells s = X.
Proof.
  unfold shapes. rewrite elem_of_list_to_set, list_elem_of_fmap. naive_solver.
Qed.

Lemma universe_app (K : list Sentence) (s : Sentence) :
  cells s ⊆ universe K → universe (K ++ [s]) = universe K.
Proof.
  intros Hs. apply leibniz_equiv. intros x. rewrite !elem_of_universe. split.
  - intros (t & [Ht | ->%list_elem_of_singleton]%elem_of_app & Hx); [eauto |].
    by apply elem_of_universe, Hs.
  - intros (t & Ht & Hx). exists t. split; [| done]. apply elem_of_app. auto.
Qed.

Lemma universe_collect (K : list Sentence) :
  universe (MinesweeperAI.collect K) = universe K.
Proof.
  apply leibniz_equiv. intros x. rewrite !elem_of_universe.
  unfold MinesweeperAI.collect. split.
  - intros (t & [_ Ht]%list_elem_of_filter & Hx). eauto.
  - intros (t & Ht & Hx). exists t. split; [| done].
    apply list_elem_of_filter. split; [| done]. apply truthy_true. set_solver.
Qed.

Lemma missing_collect (K : list Sentence) :
  missing (MinesweeperAI.collect K) = missing K.
Proof.
  unfold missing. rewrite universe_collect. f_equal.
  apply leibniz_equiv. intros X.
  rewrite !elem_of_difference, !elem_of_shapes, elem_of_singleton.
  unfold MinesweeperAI.collect. split.
  - intros [[HP Hne] Hno]. split; [done |]. intros (s & Hs & <-).
    apply Hno. exists s. split; [| done].
    apply list_elem_of_filter. split; [| done]. by apply truthy_true.
  - intros [[HP Hne] Hno]. split; [done |]. intros (s & Hs & <-).
    apply Hno. exists s. split; [| done].
    by apply list_elem_of_filter in Hs as [_ ?].
Qed.

Lemma missing_app (K : list Sentence) (s : Sentence) :
  cells s ⊆ universe K → cells s ≠ ∅ → cells s ∉ shapes K →
  (missing (K ++ [s]) < missing K)%nat.
Proof.
  intros Hsub Hne Hnew. unfold missing. rewrite universe_app by done.
  apply subset_size. split.
  - intros X. rewrite !elem_of_difference, !elem_of_shapes.
    intros [HP Hno]. split; [done |]. intros (t & Ht & <-).
    apply Hno. exists t. split; [| done]. apply elem_of_app. auto.
  - intros Hle. assert (cells s ∈ (powerset (elements (universe K)) ∖ {[∅]})
                          ∖ shapes K) as Hin.
    { rewrite !elem_of_difference, elem_of_singleton. repeat split; try done.
      apply elem_of_powerset. by rewrite list_to_set_elements_L. }
    apply Hle in Hin. rewrite elem_of_difference, elem_of_shapes in Hin.
    destruct Hin as [_ Hno]. apply Hno. exists s. split; [| done].
    apply elem_of_app. right. by apply list_elem_of_singleton.
Qed.

(** A new candidate has a new shape: two true sentences on the same cells
    have the same count. *)
Lemma candidate_fresh (M : gset Cell) (K : list Sentence) (s1 s2 : Sentence) :
  (∀ s, s ∈ K → holds M s) → s1 ∈ K → s2 ∈ K →
  productive K s1 s2 →
  cells (candidate s1 s2) ⊆ universe K
  ∧ cells (candidate s1 s2) ∉ shapes K.
Proof.
  intros HK H1 H2 (Hne & Hsub & Hnew & Hcells). split.
  - intros x Hx. apply elem_of_universe. exists s2. simpl in Hx. set_solver.
  - intros (t & Ht & Heq)%elem_of_shapes. apply Hnew.
    replace (candidate s1 s2) with t; [done |].
    apply (holds_unique M); [by apply HK | | done].
    apply holds_difference; auto.
Qed.

(** The extraction loop always reaches the garbage collection; when it
    changed anything, the universe lost a cell. *)
Lemma extract_phase (d : nat) (st : MinesweeperAI) (ch : bool) (i : nat) :
  (length (knowledge st) - i = d)%nat →
  ∃ n st' ch',
    steps n {| ai := st; changed := ch; at_pc := Extract i |}
    = {| ai := set_knowledge (MinesweeperAI.collect (knowledge st')) st';
         changed := ch'; at_pc := Combine 0 0 |}
    ∧ ((st' = st ∧ ch' = ch)
       ∨ (ch' = true ∧ universe (knowledge st') ⊂ universe (knowledge st))).
Proof.
  revert st ch i. induction d as [| d IH]; intros st ch i Hd.
  - exists 1%nat, st, ch. split; [| by left]. simpl. unfold MinesweeperAI.step.
    simpl. rewrite (proj2 (lookup_ge_None _ _)) by lia. done.
  - destruct (knowledge st !! i) as [s |] eqn:Hi;
      [| apply lookup_ge_None in Hi; lia].
    pose proof (list_elem_of_lookup_2 _ _ _ Hi) as Hin.
    assert (∀ st1 ch1,
      MinesweeperAI.extract_body s (st, ch) = (st1, ch1) →
      length (knowledge st1) = length (knowledge st) →
      (st1 = st ∧ ch1 = ch)
      ∨ (ch1 = true ∧ universe (knowledge st1) ⊂ universe (knowledge st)) →
      ∃ n st' ch',
        steps n {| ai := st; changed := ch; at_pc := Extract i |}
        = {| ai := set_knowledge (MinesweeperAI.collect (knowledge st')) st';
             changed := ch'; at_pc := Combine 0 0 |}
        ∧ ((st' = st ∧ ch' = ch)
           ∨ (ch' = true ∧ universe (knowledge st') ⊂ universe (knowledge st))))
      as Hgo.
    { intros st1 ch1 Hbody Hlen Hrel.
      destruct (IH st1 ch1 (S i)) as (n & st' & ch' & Hn & Hrel'); [lia |].
      exists (S n), st', ch'. split.
      - simpl. unfold MinesweeperAI.step at 1. simpl. rewrite Hi, Hbody. done.
      - destruct Hrel as [[-> ->] | [-> Hlt]]; [done |]. right.
        destruct Hrel' as [[-> ->] | [-> Hlt']]; [done |].
        split; [done |]. by transitivity (universe (knowledge st1)). }
    assert (∀ f : Sentence → Sentence,
      (∀ t, cells (f t) = cells t ∖ cells s) → cells s ≠ ∅ →
      universe (f <$> knowledge st) ⊂ universe (knowledge st)) as Hshrink.
    { intros f Hf Hne. apply set_choose_L in Hne as [x Hx]. split.
      - intros y. rewrite !elem_of_universe.
        intros (t & (t0 & -> & Ht0)%list_elem_of_fmap & Hy).
        rewrite Hf in Hy. exists t0. set_solver.
      - intros Hle. assert (x ∈ universe (knowledge st)) as Hxu.
        { apply elem_of_universe. eauto. }
        apply Hle, elem_of_universe in Hxu
          as (t & (t0 & -> & Ht0)%list_elem_of_fmap & Hy).
        rewrite Hf in Hy. set_solver. }
    destruct (MinesweeperAI.extract_body s (st, ch)) as [st1 ch1] eqn:Hbody.
    pose proof (extract_body_spec s st ch) as Hspec. rewrite Hbody in Hspec.
    inversion Hspec as [H0 Hne | Hall Hne | Hs Hm]; subst.
    + eapply Hgo; [done | simpl; by rewrite length_fmap |]. right. split; [done |].
      by apply Hshrink.
    + eapply Hgo; [done | simpl; by rewrite length_fmap |]. right. split; [done |].
      by apply Hshrink.
    + eapply Hgo; [done | done | by left].
Qed.

(** The nested loops always come to their end on true sentences: every
    candidate that is added has a new shape, and there are finitely many
    shapes. *)
Lemma combine_phase (M : gset Cell) (m : nat) :
  ∀ st ch i j,
    (∀ s, s ∈ knowledge st → holds M s) →
    missing (knowledge st) = m →
    ∃ n K' ch' i' j',
      steps n {| ai := st; changed := ch; at_pc := Combine i j |}
      = {| ai := set_knowledge K' st; changed := ch'; at_pc := Combine i' j' |}
      ∧ K' !! i' = None
      ∧ universe K' = universe (knowledge st)
      ∧ ((K' = knowledge st ∧ ch' = ch)
         ∨ (ch' = true ∧ (missing K' < missing (knowledge st))%nat)).
Proof.
  induction m as [m IHm] using lt_wf_ind. intros st ch i j HK Hm.
  remember (length (knowledge st) - i)%nat as d1 eqn:Hd1.
  revert i j Hd1. induction d1 as [| d1 IH1]; intros i j Hd1.
  { exists 0%nat, (knowledge st), ch, i, j. simpl. rewrite set_knowledge_same.
    repeat split; [apply lookup_ge_None; lia | by left]. }
  destruct (knowledge st !! i) as [s1 |] eqn:Hi;
    [| apply lookup_ge_None in Hi; lia].
  remember (length (knowledge st) - j)%nat as d2 eqn:Hd2.
  revert j Hd2. induction d2 as [| d2 IH2]; intros j Hd2.
  { destruct (IH1 (S i) 0%nat) as (n & K' & ch' & i' & j' & Hn & Hrest);
      [lia |].
    exists (S n), K', ch', i', j'. split; [| done].
    simpl. unfold MinesweeperAI.step at 1. simpl. rewrite Hi.
    rewrite (proj2 (lookup_ge_None _ _)) by lia. done. }
  destruct (knowledge st !! j) as [s2 |] eqn:Hj;
    [| apply lookup_ge_None in Hj; lia].
  pose proof (list_elem_of_lookup_2 _ _ _ Hi) as Hin1.
  pose proof (list_elem_of_lookup_2 _ _ _ Hj) as Hin2.
  destruct (productive_cases s1 s2 (knowledge st) ch) as [[Hp Hb] | [Hp Hb]].
  - destruct (candidate_fresh M _ _ _ HK Hin1 Hin2 Hp) as [Hsub Hnew].
    pose proof Hp as (Hne & Hincl & _ & Hcells).
    pose proof (missing_app _ _ Hsub Hcells Hnew) as Hlt.
    destruct (IHm (missing (knowledge st ++ [candidate s1 s2]))
                  ltac:(lia)
                  (set_knowledge (knowledge st ++ [candidate s1 s2]) st)
                  true i (S j))
      as (n & K' & ch' & i' & j' & Hn & Hend & Huni & Hrel); [| done |].
    { simpl. intros s [Hs | ->%list_elem_of_singleton]%elem_of_app; [auto |].
      apply holds_difference; auto. }
    exists (S n), K', ch', i', j'. split; [| split; [done | split]].
    + simpl. unfold MinesweeperAI.step at 1. simpl. rewrite Hi, Hj, Hb. simpl.
      rewrite Hn. done.
    + simpl in Huni. rewrite Huni. by apply universe_app.
    + right. simpl in Hrel. destruct Hrel as [[-> ->] | [-> Hlt']];
        split; try done; lia.
  - destruct (IH2 (S j)) as (n & K' & ch' & i' & j' & Hn & Hrest); [lia |].
    exists (S n), K', ch', i', j'. split; [| done].
    simpl. unfold MinesweeperAI.step at 1. simpl. rewrite Hi, Hj, Hb. simpl.
    rewrite set_knowledge_same. done.
Qed.

(** Rounds: a round that changed something either removed a cell from the
    universe or, with the universe as it was, added a shape. *)
Lemma rounds_halt (M : gset Cell) (u : nat) :
  ∀ m st,
    sound M st →
    size (universe (knowledge st)) = u → missing (knowledge st) = m →
    ∃ n, at_pc (steps n (MinesweeperAI.enter st)) = Halted.
Proof.
  induction u as [u IHu] using lt_wf_ind.
  induction m as [m IHm] using lt_wf_ind. intros st Hsound Hu Hm.
  destruct (extract_phase _ st false 0%nat eq_refl)
    as (n1 & st1 & ch1 & Hn1 & Hrel1).
  set (c1 := {| ai := set_knowledge (MinesweeperAI.collect (knowledge st1)) st1;
                changed := ch1; at_pc := Combine 0 0 |}) in *.
  assert (sound M (ai c1)) as Hsound1.
  { rewrite <- Hn1. by apply steps_sound. }
  destruct (combine_phase M _ (ai c1) ch1 0%nat 0%nat (proj2 (proj2 Hsound1)) eq_refl)
    as (n2 & K2 & ch2 & i2 & j2 & Hn2 & Hend & Huni & Hrel2).
  set (st2 := set_knowledge K2 (ai c1)) in *.
  assert (steps (n1 + n2) (MinesweeperAI.enter st)
          = {| ai := st2; changed := ch2; at_pc := Combine i2 j2 |}) as Hn12.
  { rewrite steps_add. unfold MinesweeperAI.enter. rewrite Hn1. apply Hn2. }
  assert (sound M st2) as Hsound2.
  { change st2 with (ai {| ai := st2; changed := ch2; at_pc := Combine i2 j2 |}).
    rewrite <- Hn12. by apply steps_sound. }
  assert (steps (n1 + n2 + 1) (MinesweeperAI.enter st)
          = if ch2 then MinesweeperAI.enter st2
            else {| ai := st2; changed := false; at_pc := Halted |}) as Hn3.
  { rewrite steps_add, Hn12. simpl. unfold MinesweeperAI.step. simpl.
    rewrite Hend. by destruct ch2. }
  destruct ch2.
  - assert (∃ n, at_pc (steps n (MinesweeperAI.enter st2)) = Halted)
      as [n3 Hn4].
    { simpl in Huni. rewrite universe_collect in Huni.
      destruct Hrel1 as [[-> ->] | [-> Hlt]].
      - destruct Hrel2 as [[_ [=]] | [_ Hlt]].
        simpl in Hlt. rewrite missing_collect in Hlt.
        apply (IHm (missing K2)); [lia | done | | done].
        simpl. by rewrite Huni.
      - apply subset_size in Hlt.
        apply (IHu (size (universe K2)) ltac:(simpl; rewrite Huni; lia)
                   (missing K2)); done. }
    exists (n1 + n2 + 1 + n3)%nat. by rewrite steps_add, Hn3.
  - exists (n1 + n2 + 1)%nat. by rewrite Hn3.
Qed.

Lemma update_knowledge_returns (M : gset Cell) (st : MinesweeperAI) :
  sound M st → ∃ fuel st', MinesweeperAI.update_knowledge fuel st = Some st'.
Proof.
  intros Hsound.
  destruct (rounds_halt M _ _ st Hsound eq_refl eq_refl) as [n Hn].
  exists n, (ai (steps n (MinesweeperAI.enter st))). by apply steps_run.
Qed.

(** ** Contradictory observations can make [update_knowledge] run forever *)

Section spinning.
Variables A B : gset Cell.
Hypothesis A_nonempty : A ≠ ∅.
Hypothesis B_nonempty : B ≠ ∅.
Hypothesis A_B_disjoint : A ## B.

(** A productive pair in a spinning knowledge is a narrow sentence and a
    wide one; the candidate is narrow, on the other set. *)
Lemma spinning_pair (K : list Sentence) (s1 s2 : Sentence) :
  (∀ t, t ∈ K → cells t = A ∨ cells t = B
                ∨ (cells t = A ∪ B ∧ (count t = 2 ∨ count t = 3))) →
  s1 ∈ K → s2 ∈ K →
  cells s1 ⊆ cells s2 → cells (candidate s1 s2) ≠ ∅ →
  (cells s1 = A ∨ cells s1 = B)
  ∧ cells s2 = A ∪ B ∧ (count s2 = 2 ∨ count s2 = 3)
  ∧ (cells (candidate s1 s2) = A ∨ cells (candidate s1 s2) = B)
  ∧ cells (candidate s1 s2) ≠ A ∪ B.
Proof.
  intros Hshape H1 H2 Hsub Hne. simpl in *.
  pose proof (Hshape s1 H1) as Hc1. pose proof (Hshape s2 H2) as Hc2.
  clear Hshape H1 H2.
  destruct (set_choose_L A A_nonempty) as [a Ha].
  destruct (set_choose_L B B_nonempty) as [b Hb].
  pose proof A_B_disjoint as Hd.
  assert (cells s2 ∖ cells s1 ≠ ∅ → ∃ x, x ∈ cells s2 ∧ x ∉ cells s1) as Hx.
  { intros [x Hx]%set_choose_L. exists x. set_solver. }
  destruct (Hx Hne) as (x & Hx2 & Hx1). clear Hx.
  destruct Hc1 as [E1 | [E1 | [E1 _]]], Hc2 as [E2 | [E2 | [E2 Hk]]];
    rewrite E1, E2 in *.
  - done.
  - exfalso. set_solver.
  - repeat split; try done; [by left | right | ]; set_solver.
  - exfalso. set_solver.
  - done.
  - repeat split; try done; [by right | left | ]; set_solver.
  - exfalso. set_solver.
  - exfalso. set_solver.
  - done.
Qed.

Lemma narrow_facts (X : gset Cell) :
  X = A ∨ X = B →
  X ≠ A ∪ B ∧ X ⊆ A ∪ B ∧ (A ∪ B) ∖ X ≠ A ∪ B ∧ (A ∪ B) ∖ X ≠ ∅.
Proof.
  destruct (set_choose_L A A_nonempty) as [a Ha].
  destruct (set_choose_L B B_nonempty) as [b Hb].
  pose proof A_B_disjoint as Hd.
  intros [-> | ->]; repeat split; try (intros x Hx; set_solver).
  - intros Heq. assert (b ∈ A) by (rewrite Heq; set_solver). set_solver.
  - intros Heq. assert (a ∈ (A ∪ B) ∖ A) by (rewrite Heq; set_solver).
    set_solver.
  - intros Heq. assert (b ∈ (A ∪ B) ∖ A) as Hin by set_solver.
    rewrite Heq in Hin. set_solver.
  - intros Heq. assert (a ∈ B) by (rewrite Heq; set_solver). set_solver.
  - intros Heq. assert (b ∈ (A ∪ B) ∖ B) by (rewrite Heq; set_solver).
    set_solver.
  - intros Heq. assert (a ∈ (A ∪ B) ∖ B) as Hin by set_solver.
    rewrite Heq in Hin. set_solver.
Qed.

Lemma spinning_step (c : config) :
  spinning A B c → spinning A B (MinesweeperAI.step c).
Proof.
  intros (i & j & p & s & Hpc & H2 & H4 & Hshape & Hp & Hs & Hmax & Hpos).
  unfold MinesweeperAI.step. rewrite Hpc.
  pose proof (lookup_lt_Some _ _ _ Hp) as Hplen.
  pose proof (lookup_lt_Some _ _ _ H4) as H4len.
  destruct (knowledge (ai c) !! i) as [s1 |] eqn:Hi;
    [| apply lookup_ge_None in Hi; lia].
  pose proof (list_elem_of_lookup_2 _ _ _ Hi) as Hin1.
  destruct (knowledge (ai c) !! j) as [s2 |] eqn:Hj.
  - pose proof (list_elem_of_lookup_2 _ _ _ Hj) as Hin2.
    assert (i = p → (2 <= count s ∧ j = 2%nat) ∨ (count s <= 1 ∧ j = 4%nat) →
            productive (knowledge (ai c)) s1 s2
            ∧ slack (count s) < slack (count (candidate s1 s2))) as Hlead.
    { intros -> Hj'. rewrite Hp in Hi. injection Hi as <-.
      assert (s2 = wide A B 2 ∧ 2 <= count s ∨ s2 = wide A B 3 ∧ count s <= 1)
        as Hs2.
      { destruct Hj' as [[? ->] | [? ->]]; [left | right]; split; congruence. }
      assert (slack (count s) < slack (count (candidate s s2))) as Hlt.
      { unfold slack. destruct Hs2 as [[-> ?] | [-> ?]]; simpl; lia. }
      split; [| done].
      assert (cells s2 = A ∪ B) as Hc2 by (by destruct Hs2 as [[-> _] | [-> _]]).
      destruct (narrow_facts (cells s) Hs) as (Hn1 & Hn2 & Hn3 & Hn4).
      repeat split.
      - intros ->. by rewrite Hc2 in Hn1.
      - by rewrite Hc2.
      - intros Hin. specialize (Hmax _ Hin). simpl in Hmax. rewrite Hc2 in Hmax.
        specialize (Hmax Hn3). simpl in Hlt. lia.
      - simpl. by rewrite Hc2. }
    destruct (productive_cases s1 s2 (knowledge (ai c)) (changed c))
      as [[Hprod ->] | [Hno ->]]; simpl.
    + destruct Hprod as (Hne & Hsub & Hnew & Hcells).
      destruct (spinning_pair _ _ _ Hshape Hin1 Hin2 Hsub Hcells)
        as (_ & _ & _ & Hcand & Hnarrow).
      assert (∀ t, t ∈ knowledge (ai c) ++ [candidate s1 s2] →
                   cells t = A ∨ cells t = B
                   ∨ (cells t = A ∪ B ∧ (count t = 2 ∨ count t = 3))) as Hshape'.
      { intros t [Ht | ->%list_elem_of_singleton]%elem_of_app; [auto |].
        destruct Hcand; auto. }
      destruct (decide (slack (count (candidate s1 s2)) <= slack (count s)))
        as [Hle | Hgt].
      * exists i, (S j), p, s. simpl.
        rewrite !lookup_app_l by lia. repeat split; try done.
        -- intros t [Ht | ->%list_elem_of_singleton]%elem_of_app Hn; auto.
        -- destruct Hpos as [Hlt | [-> Hj']]; [by left | right].
           split; [done |].
           destruct Hj' as [[Hn Hj'] | [Hn Hj']].
           ++ left. split; [done |].
              destruct (decide (j = 2%nat)) as [-> | ?]; [| lia].
              destruct (Hlead eq_refl) as [_ Hlt]; [by left | lia].
           ++ right. split; [done |].
              destruct (decide (j = 4%nat)) as [-> | ?]; [| lia].
              destruct (Hlead eq_refl) as [_ Hlt]; [by right | lia].
      * exists i, (S j), (length (knowledge (ai c))), (candidate s1 s2). simpl.
        rewrite !lookup_app_l by lia. repeat split; try done.
        -- rewrite lookup_app_r by lia. by rewrite Nat.sub_diag.
        -- intros t [Ht | ->%list_elem_of_singleton]%elem_of_app Hn; [| done].
           specialize (Hmax t Ht Hn). unfold slack in *. simpl in *. lia.
        -- left. apply lookup_lt_Some in Hi. lia.
    + exists i, (S j), p, s. simpl. repeat split; try done.
      destruct Hpos as [Hlt | [-> Hj']]; [by left | right].
      split; [done |].
      destruct Hj' as [[Hn Hj'] | [Hn Hj']].
      * left. split; [done |].
        destruct (decide (j = 2%nat)) as [-> | ?]; [| lia].
        destruct (Hlead eq_refl) as [Hprod _]; [by left | done].
      * right. split; [done |].
        destruct (decide (j = 4%nat)) as [-> | ?]; [| lia].
        destruct (Hlead eq_refl) as [Hprod _]; [by right | done].
  - apply lookup_ge_None in Hj.
    exists (S i), 0%nat, p, s. simpl. repeat split; try done.
    destruct Hpos as [Hlt | [-> Hj']]; [| lia].
    destruct (decide (S i = p)) as [<- | ?]; [right | left; lia].
    split; [done |]. destruct (decide (2 <= count s)); [left | right]; lia.
Qed.

Lemma spinning_steps (n : nat) (c : config) :
  spinning A B c → spinning A B (steps n c).
Proof.
  revert c. induction n as [| n IH]; intros c Hc; simpl; [done |].
  by apply IH, spinning_step.
Qed.

Lemma spinning_forever (n : nat) (c : config) :
  spinning A B c → at_pc (steps n c) ≠ Halted.
Proof.
  intros Hc. destruct (spinning_steps n c Hc) as (i & j & _ & _ & -> & _). done.
Qed.

End spinning.

(** A run that reaches a spinning configuration does not return, whatever
    the fuel. *)
Lemma run_spinning (A B : gset Cell) (k fuel : nat) (c : config) :
  A ≠ ∅ → B ≠ ∅ → A ## B →
  spinning A B (steps k c) → MinesweeperAI.run fuel c = None.
Proof.
  intros HA HB HAB Hspin.
  destruct (MinesweeperAI.run fuel c) as [st |] eqn:Hrun; [| done].
  apply run_steps in Hrun as [Hh _]. exfalso.
  apply (spinning_forever A B HA HB HAB fuel (steps k c) Hspin).
  rewrite <- steps_add, Nat.add_comm, steps_add. by rewrite steps_halted.
Qed.

(** ** Settled sentences *)

Lemma size_inter_diff (X Y : gset Cell) :
  size X = (size (X ∩ Y) + size (X ∖ Y))%nat.
Proof.
  rewrite <- size_union by set_solver. f_equal.
  apply leibniz_equiv. intros x. split; [| set_solver].
  intros Hx. destruct (decide (x ∈ Y)); set_solver.
Qed.

Lemma sentence_eq (s t : Sentence) :
  cells s = cells t → count s = count t → s = t.
Proof. destruct s, t; simpl. by intros -> ->. Qed.

Lemma cells_settle (F : MinesweeperAI) (s : Sentence) :
  cells (settle F s) = cells s ∖ safes F ∖ mines F.
Proof. done. Qed.

Lemma count_settle (F : MinesweeperAI) (s : Sentence) :
  count (settle F s)
  = count s - Z.of_nat (size ((cells s ∖ safes F) ∩ mines F)).
Proof. done. Qed.

Lemma settle_tidy (F : MinesweeperAI) (s : Sentence) :
  cells s ## mines F ∪ safes F → settle F s = s.
Proof.
  intros Hd. apply sentence_eq.
  - rewrite cells_settle. set_solver.
  - rewrite count_settle.
    replace ((cells s ∖ safes F) ∩ mines F) with (∅ : gset Cell) by set_solver.
    rewrite size_empty. lia.
Qed.

Lemma settle_without_safes (F : MinesweeperAI) (X : gset Cell) (s : Sentence) :
  X ⊆ safes F → settle F (without_safes X s) = settle F s.
Proof.
  intros HX. apply sentence_eq.
  - rewrite !cells_settle. simpl. set_solver.
  - rewrite !count_settle. simpl. do 4 f_equal. set_solver.
Qed.

Lemma settle_without_mines (F : MinesweeperAI) (X : gset Cell) (s : Sentence) :
  X ⊆ mines F → safes F ## mines F →
  settle F (without_mines X s) = settle F s.
Proof.
  intros HX Hd. apply sentence_eq.
  - rewrite !cells_settle. simpl. set_solver.
  - rewrite !count_settle. simpl.
    rewrite (size_inter_diff ((cells s ∖ safes F) ∩ mines F) X).
    replace (((cells s ∖ safes F) ∩ mines F) ∩ X) with (cells s ∩ X)
      by set_solver.
    replace (((cells s ∖ safes F) ∩ mines F) ∖ X)
      with (((cells s ∖ X) ∖ safes F) ∩ mines F) by set_solver.
    lia.
Qed.

Lemma settle_candidate (F : MinesweeperAI) (s1 s2 : Sentence) :
  cells s1 ⊆ cells s2 →
  settle F (candidate s1 s2) = candidate (settle F s1) (settle F s2).
Proof.
  intros Hsub. apply sentence_eq.
  - simpl. apply leibniz_equiv. intros x.
    destruct (decide (x ∈ cells s1)); set_solver.
  - rewrite count_settle. simpl.
    rewrite (size_inter_diff ((cells s2 ∖ safes F) ∩ mines F) (cells s1)).
    replace (((cells s2 ∖ safes F) ∩ mines F) ∩ cells s1)
      with ((cells s1 ∖ safes F) ∩ mines F) by set_solver.
    replace (((cells s2 ∖ safes F) ∩ mines F) ∖ cells s1)
      with (((cells s2 ∖ cells s1) ∖ safes F) ∩ mines F) by set_solver.
    lia.
Qed.

Lemma holds_settle (M : gset Cell) (F : MinesweeperAI) (s : Sentence) :
  sound M F → holds M s → holds M (settle F s).
Proof.
  intros (Hm & Hs & _) H. unfold settle.
  by apply holds_without_mines, holds_without_safes.
Qed.

(** ** Comparing a state with a state at rest *)

Lemma below_refl (F : MinesweeperAI) : tidy F → below F F.
Proof.
  intros Ht. repeat split; try done. intros s Hs. right.
  rewrite settle_tidy; [done | by apply Ht].
Qed.

(** Backwards along a rule: what is below [F] after the rule was below [F]
    before it. *)
Lemma below_before (F st st' : MinesweeperAI) :
  safes F ## mines F → infers st st' → below F st' → below F st.
Proof.
  intros Hd Hinf (Hs & Hm & HK).
  destruct Hinf as [st s0 Hin H0 Hne | st s0 Hin Hall Hne | st
                    | st s1 s2 H1 H2 Hneq Hsub Hnew Hne]; simpl in *.
  - repeat split; [set_solver | done |]. intros s Hin'.
    rewrite <- (settle_without_safes F (cells s0)) by set_solver.
    apply HK. by apply list_elem_of_fmap_2.
  - repeat split; [done | set_solver |]. intros s Hin'.
    rewrite <- (settle_without_mines F (cells s0)) by set_solver.
    apply HK. by apply list_elem_of_fmap_2.
  - repeat split; [done | done |]. intros s Hin.
    destruct (decide (cells s = ∅)) as [He | Hne].
    + left. rewrite cells_settle, He. set_solver.
    + apply HK. unfold MinesweeperAI.collect. apply list_elem_of_filter.
      split; [by apply truthy_true | done].
  - repeat split; [done | done |]. intros s Hin.
    apply HK. apply elem_of_app. by left.
Qed.

Lemma below_start (F st : MinesweeperAI) :
  safes F ## mines F → tidy F → rtc infers st F → below F st.
Proof.
  intros Hd Ht Hrun. induction Hrun as [F | st st1 F H1 _ IH].
  - by apply below_refl.
  - eapply below_before; eauto.
Qed.

(** Forwards along a rule, when [F] is at rest and all sentences are
    true. *)
Lemma below_after (M : gset Cell) (F st st' : MinesweeperAI) :
  stable F → sound M F → sound M st →
  infers st st' → below F st → below F st'.
Proof.
  intros [Hrest Hclosed] HF Hst Hinf (Hs & Hm & HK).
  pose proof HF as (HFm & HFs & HFK).
  pose proof Hst as (_ & _ & HstK).
  assert (safes F ## mines F) as Hd by set_solver.
  destruct Hinf as [st s0 Hin H0 Hne | st s0 Hin Hall Hne | st
                    | st s1 s2 H1 H2 Hneq Hsub Hnew Hne]; simpl.
  - (* the cells of a sentence with count 0 are safe in [F] too *)
    assert (cells s0 ## M) as Hsafe.
    { pose proof (holds_known_safes M s0 (HstK s0 Hin)) as H.
      unfold Sentence.known_safes in H. by rewrite decide_True in H. }
    assert (cells s0 ⊆ safes F) as Hsub.
    { destruct (HK s0 Hin) as [He | Hin'].
      - rewrite cells_settle in He. set_solver.
      - destruct (Hrest _ Hin') as (_ & Hcount & _). exfalso. apply Hcount.
        rewrite count_settle, H0.
        replace ((cells s0 ∖ safes F) ∩ mines F) with (∅ : gset Cell)
          by set_solver.
        by rewrite size_empty. }
    repeat split; [set_solver | done |].
    intros s (s' & -> & Hin')%list_elem_of_fmap.
    rewrite settle_without_safes by done. by apply HK.
  - (* the cells of a sentence that is all mines are mines in [F] too *)
    assert (cells s0 ⊆ M) as Hmine.
    { pose proof (holds_known_mines M s0 (HstK s0 Hin)) as H.
      unfold Sentence.known_mines in H. by rewrite decide_True in H. }
    assert (cells s0 ⊆ mines F) as Hsub.
    { destruct (HK s0 Hin) as [He | Hin'].
      - rewrite cells_settle in He. set_solver.
      - destruct (Hrest _ Hin') as (_ & _ & Hcount). exfalso. apply Hcount.
        rewrite count_settle, cells_settle, Hall.
        replace (cells s0 ∖ safes F) with (cells s0) by set_solver.
        rewrite (size_inter_diff (cells s0) (mines F)). lia. }
    repeat split; [done | set_solver |].
    intros s (s' & -> & Hin')%list_elem_of_fmap.
    rewrite settle_without_mines by done. by apply HK.
  - repeat split; [done | done |]. intros s Hin. apply HK.
    unfold MinesweeperAI.collect in Hin.
    by apply list_elem_of_filter in Hin as [_ ?].
  - repeat split; [done | done |].
    intros s [Hin | ->%list_elem_of_singleton]%elem_of_app; [by apply HK |].
    rewrite settle_candidate by done.
    set (t1 := settle F s1). set (t2 := settle F s2).
    destruct (decide (cells (candidate t1 t2) = ∅)) as [He | Hne']; [by left |].
    right. change (cells t2 ∖ cells t1 ≠ ∅) in Hne'.
    destruct (HK s2 H2) as [He2 | Hin2]; [fold t2 in He2; set_solver |].
    fold t2 in Hin2.
    destruct (HK s1 H1) as [He1 | Hin1]; fold t1 in He1 || fold t1 in Hin1.
    + (* nothing of [s1] is left: the candidate is [t2] *)
      replace (candidate t1 t2) with t2; [done |].
      assert (count t1 = 0) as H0.
      { apply (holds_empty M); [| done]. apply holds_settle; auto. }
      apply sentence_eq; [simpl; set_solver |].
      change (count (candidate t1 t2)) with (count t2 - count t1). lia.
    + destruct (decide (candidate t1 t2 ∈ knowledge F)) as [? | Hnot]; [done |].
      destruct (Hclosed t1 t2 Hin1 Hin2). repeat split; try done.
      * intros Heq. rewrite Heq in Hne'. set_solver.
      * unfold t1, t2. rewrite !cells_settle. set_solver.
Qed.

Lemma below_run (M : gset Cell) (F st st' : MinesweeperAI) :
  stable F → sound M F → sound M st →
  rtc infers st st' → below F st → below F st'.
Proof.
  intros HF HFs Hst Hrun. induction Hrun as [| st st1 st' H1 _ IH]; [done |].
  intros Hb. apply IH.
  - by eapply infers_sound.
  - by eapply below_after.
Qed.

(** Two states at rest, each below the other, know the same. *)
Lemma below_antisym (F1 F2 : MinesweeperAI) :
  stable F1 → tidy F1 → stable F2 → tidy F2 →
  below F1 F2 → below F2 F1 →
  safes F1 = safes F2 ∧ mines F1 = mines F2
  ∧ ∀ s, s ∈ knowledge F1 ↔ s ∈ knowledge F2.
Proof.
  intros [Hr1 _] Ht1 [Hr2 _] Ht2 (Hs21 & Hm21 & HK21) (Hs12 & Hm12 & HK12).
  assert (safes F1 = safes F2) as Hs by set_solver.
  assert (mines F1 = mines F2) as Hm by set_solver.
  repeat split; try done.
  - intros Hin. destruct (HK12 s Hin) as [He | Hin'].
    + rewrite settle_tidy in He by (rewrite <- Hs, <- Hm; by apply Ht1).
      by destruct (Hr1 s Hin).
    + by rewrite settle_tidy in Hin' by (rewrite <- Hs, <- Hm; by apply Ht1).
  - intros Hin. destruct (HK21 s Hin) as [He | Hin'].
    + rewrite settle_tidy in He by (rewrite Hs, Hm; by apply Ht2).
      by destruct (Hr2 s Hin).
    + by rewrite settle_tidy in Hin' by (rewrite Hs, Hm; by apply Ht2).
Qed.

Lemma update_knowledge_run (fuel : nat) (st st' : MinesweeperAI) :
  MinesweeperAI.update_knowledge fuel st = Some st' → rtc infers st st'.
Proof.
  intros [_ <-]%run_steps. apply (steps_infers fuel (MinesweeperAI.enter st)).
Qed.

Lemma rtc_infers_sound (M : gset Cell) (st st' : MinesweeperAI) :
  rtc infers st st' → sound M st → sound M st'.
Proof.
  induction 1 as [| st st1 st' H1 _ IH]; [done |].
  intros Hst. apply IH. by eapply infers_sound.
Qed.

Lemma rtc_infers_tidy (st st' : MinesweeperAI) :
  rtc infers st st' → tidy st → tidy st'.
Proof.
  induction 1 as [| st st1 st' H1 _ IH]; [done |].
  intros Hst. apply IH. by eapply infers_tidy.
Qed.

(** Two runs on truthful knowledge that start with the same safes, mines
    and sentences, in whatever order the sentences are listed, end with the
    same safes, mines and sentences. *)
Lemma update_knowledge_confluent (M : gset Cell) (st1 st2 r1 r2 : MinesweeperAI)
    (fuel1 fuel2 : nat) :
  sound M st1 → tidy st1 →
  safes st2 = safes st1 → mines st2 = mines st1 →
  (∀ s, s ∈ knowledge st2 ↔ s ∈ knowledge st1) →
  MinesweeperAI.update_knowledge fuel1 st1 = Some r1 →
  MinesweeperAI.update_knowledge fuel2 st2 = Some r2 →
  safes r1 = safes r2 ∧ mines r1 = mines r2
  ∧ ∀ s, s ∈ knowledge r1 ↔ s ∈ knowledge r2.
Proof.
  intros Hs1 Ht1 Hsafes Hmines HK Hr1 Hr2.
  assert (sound M st2) as Hs2.
  { destruct Hs1 as (? & ? & HK1).
    repeat split; [by rewrite Hmines | by rewrite Hsafes |].
    intros s Hs. by apply HK1, HK. }
  assert (tidy st2) as Ht2.
  { intros s Hs. rewrite Hsafes, Hmines. by apply Ht1, HK. }
  pose proof (update_knowledge_run _ _ _ Hr1) as Hrun1.
  pose proof (update_knowledge_run _ _ _ Hr2) as Hrun2.
  pose proof (update_knowledge_stable _ _ _ Hr1) as Hrest1.
  pose proof (update_knowledge_stable _ _ _ Hr2) as Hrest2.
  pose proof (rtc_infers_sound M _ _ Hrun1 Hs1) as Hsr1.
  pose proof (rtc_infers_sound M _ _ Hrun2 Hs2) as Hsr2.
  pose proof (rtc_infers_tidy _ _ Hrun1 Ht1) as Htr1.
  pose proof (rtc_infers_tidy _ _ Hrun2 Ht2) as Htr2.
  assert (safes r1 ## mines r1) as Hd1 by (destruct Hsr1 as (? & ? & _); set_solver).
  assert (safes r2 ## mines r2) as Hd2 by (destruct Hsr2 as (? & ? & _); set_solver).
  assert (∀ F, below F st1 ↔ below F st2) as Hsame.
  { intros F. unfold below. rewrite Hsafes, Hmines.
    split; intros (? & ? & HF); repeat split; try done;
      intros s Hs; by apply HF, HK. }
  apply below_antisym; try done.
  - apply (below_run M r1 st2 r2); try done.
    apply Hsame. by apply below_start.
  - apply (below_run M r2 st1 r1); try done.
    apply Hsame. by apply below_start.
Qed.

(** ** Every extractable sentence is extracted *)

Section tracking.
Variable M : gset Cell.
Variable s : Sentence.

Lemma all_mines (t : Sentence) :
  holds M t → count t = Z.of_nat (size (cells t)) → cells t ⊆ M.
Proof.
  intros Ht Hall. pose proof (holds_known_mines M t Ht) as H.
  unfold Sentence.known_mines in H. by rewrite decide_True in H.
Qed.

Lemma no_mines (t : Sentence) : holds M t → count t = 0 → cells t ## M.
Proof.
  intros Ht Hall. pose proof (holds_known_safes M t Ht) as H.
  unfold Sentence.known_safes in H. by rewrite decide_True in H.
Qed.

Lemma infers_mined (st st' : MinesweeperAI) :
  sound M st → infers st st' → mined s st → mined s st'.
Proof.
  intros (_ & _ & HK) Hinf (t & [Hin | He] & Hsub & Hlost & Hall).
  2:{ exists t. repeat split; [by right | done | | done].
      apply infers_frame in Hinf as (_ & _ & _ & ? & _). set_solver. }
  pose proof (all_mines t (HK t Hin) Hall) as HtM.
  destruct Hinf as [st s0 Hin0 H0 Hne | st s0 Hin0 Hall0 Hne | st
                    | st s1 s2 H1 H2 Hneq Hsub12 Hnew Hne]; simpl.
  - pose proof (no_mines s0 (HK s0 Hin0) H0) as Hs0.
    exists (without_safes (cells s0) t). simpl. repeat split.
    + left. by apply list_elem_of_fmap_2.
    + set_solver.
    + set_solver.
    + rewrite Hall. do 2 f_equal. set_solver.
  - exists (without_mines (cells s0) t). simpl. repeat split.
    + left. by apply list_elem_of_fmap_2.
    + set_solver.
    + intros x Hx. destruct (decide (x ∈ cells s0)); set_solver.
    + rewrite Hall, (size_inter_diff (cells t) (cells s0)). lia.
  - exists t. repeat split; try done.
    destruct (decide (cells t = ∅)); [by right | left].
    unfold MinesweeperAI.collect. apply list_elem_of_filter.
    split; [by apply truthy_true | done].
  - exists t. repeat split; try done. left. apply elem_of_app. by left.
Qed.

Lemma infers_cleared (st st' : MinesweeperAI) :
  sound M st → infers st st' → cleared s st → cleared s st'.
Proof.
  intros (_ & _ & HK) Hinf (t & [Hin | He] & Hsub & Hlost & Hall).
  2:{ exists t. repeat split; [by right | done | | done].
      apply infers_frame in Hinf as (_ & _ & _ & _ & ?). set_solver. }
  pose proof (no_mines t (HK t Hin) Hall) as HtM.
  destruct Hinf as [st s0 Hin0 H0 Hne | st s0 Hin0 Hall0 Hne | st
                    | st s1 s2 H1 H2 Hneq Hsub12 Hnew Hne]; simpl.
  - exists (without_safes (cells s0) t). simpl. repeat split.
    + left. by apply list_elem_of_fmap_2.
    + set_solver.
    + intros x Hx. destruct (decide (x ∈ cells s0)); set_solver.
    + done.
  - pose proof (all_mines s0 (HK s0 Hin0) Hall0) as Hs0.
    exists (without_mines (cells s0) t). simpl. repeat split.
    + left. by apply list_elem_of_fmap_2.
    + set_solver.
    + set_solver.
    + rewrite Hall.
      replace (cells t ∩ cells s0) with (∅ : gset Cell) by set_solver.
      by rewrite size_empty.
  - exists t. repeat split; try done.
    destruct (decide (cells t = ∅)); [by right | left].
    unfold MinesweeperAI.collect. apply list_elem_of_filter.
    split; [by apply truthy_true | done].
  - exists t. repeat split; try done. left. apply elem_of_app. by left.
Qed.

Lemma run_extracts (st st' : MinesweeperAI) :
  sound M st → rtc infers st st' → stable st' → s ∈ knowledge st →
  (count s = Z.of_nat (size (cells s)) → cells s ⊆ mines st')
  ∧ (count s = 0 → cells s ⊆ safes st').
Proof.
  intros Hst Hrun [Hrest _] Hin.
  assert (mined s st → mined s st') as Hmined.
  { clear Hin. induction Hrun as [| st st1 st' H1 _ IH]; [done |].
    intros Hm. apply IH; [by eapply infers_sound | done |].
    by eapply infers_mined. }
  assert (cleared s st → cleared s st') as Hcleared.
  { clear Hin Hmined. induction Hrun as [| st st1 st' H1 _ IH]; [done |].
    intros Hm. apply IH; [by eapply infers_sound | done |].
    by eapply infers_cleared. }
  split; intros Hcount.
  - destruct Hmined as (t & [Ht | He] & Hsub & Hlost & Hall).
    { exists s. repeat split; [by left | done | set_solver | done]. }
    + by destruct (Hrest t Ht) as (_ & _ & ?).
    + set_solver.
  - destruct Hcleared as (t & [Ht | He] & Hsub & Hlost & Hall).
    { exists s. repeat split; [by left | done | set_solver | done]. }
    + by destruct (Hrest t Ht) as (_ & ? & _).
    + set_solver.
Qed.

End tracking.

(** ** The moves *)

Lemma make_safe_move_spec (st : MinesweeperAI) :
  match MinesweeperAI.make_safe_move st with
  | Some c => c ∈ safes st ∧ c ∉ moves_made st
  | None => safes st ⊆ moves_made st
  end.
Proof.
  unfold MinesweeperAI.make_safe_move.
  destruct (List.find _ _) as [c |] eqn:Hfind.
  - apply find_some in Hfind as [Hin Hc].
    apply list_elem_of_In, elem_of_elements in Hin.
    by apply bool_decide_eq_true in Hc.
  - intros c Hc. pose proof (find_none _ _ Hfind c) as Hn.
    destruct (decide (c ∈ moves_made st)) as [| Hno]; [done |].
    assert (bool_decide (c ∉ moves_made st) = false) as Hb.
    { apply Hn. by apply list_elem_of_In, elem_of_elements. }
    by apply bool_decide_eq_false in Hb.
Qed.

Lemma elem_of_board_cells (st : MinesweeperAI) (c : Cell) :
  c ∈ board_cells st ↔ in_board st c.
Proof.
  destruct c as [x y]. unfold board_cells, in_board. simpl.
  rewrite list_elem_of_bind. split.
  - intros (x' & (y' & Hc & Hy)%list_elem_of_bind & Hx).
    apply list_elem_of_singleton in Hc as [= -> ->].
    apply elem_of_range in Hx, Hy. lia.
  - intros [Hx Hy]. exists x. split; [| by apply elem_of_range].
    apply list_elem_of_bind. exists y. split; [| by apply elem_of_range].
    by apply list_elem_of_singleton.
Qed.

Lemma NoDup_board_cells (st : MinesweeperAI) : NoDup (board_cells st).
Proof.
  unfold board_cells. apply NoDup_bind; [| | apply NoDup_seqZ].
  - intros x1 x2 [x y] _ _ (y1 & Hy1 & _)%list_elem_of_bind
      (y2 & Hy2 & _)%list_elem_of_bind.
    apply list_elem_of_singleton in Hy1, Hy2. congruence.
  - intros x _. apply NoDup_bind; [| | apply NoDup_seqZ].
    + intros y1 y2 [x' y] _ _ Hy1 Hy2.
      apply list_elem_of_singleton in Hy1, Hy2. congruence.
    + intros y _. apply NoDup_singleton.
Qed.

Lemma length_bind_const {A B : Type} (f : A → list B) (l : list A) (n : nat) :
  (∀ x, length (f x) = n) → length (l ≫= f) = (length l * n)%nat.
Proof.
  intros Hf. induction l as [| x l IH]; csimpl; [done |].
  by rewrite length_app, Hf, IH.
Qed.

Lemma length_board_cells (st : MinesweeperAI) :
  0 <= height st → 0 <= width st →
  Z.of_nat (length (board_cells st)) = height st * width st.
Proof.
  intros Hh Hw. unfold board_cells.
  rewrite (length_bind_const _ _ (Z.to_nat (width st))).
  - unfold range. rewrite length_seqZ. lia.
  - intros x. rewrite (length_bind_const _ _ 1%nat) by done.
    unfold range. rewrite length_seqZ. lia.
Qed.

(** When the two sets are disjoint sets of board cells whose sizes add up
    to the size of the board, no cell of the board is free. *)
Lemma exhausted_no_free (st : MinesweeperAI) (c : Cell) :
  moves_made st ## mines st →
  (∀ x, x ∈ moves_made st ∪ mines st → in_board st x) →
  exhausted st → in_board st c → ¬ free st c.
Proof.
  intros Hd Hin Hfull Hc [Hc1 Hc2].
  assert (0 <= height st ∧ 0 <= width st) as [Hh Hw].
  { unfold in_board in Hc. lia. }
  set (U := moves_made st ∪ mines st).
  set (Bd := list_to_set (board_cells st) : gset Cell).
  assert (U ⊆ Bd) as Hsub.
  { intros x Hx. apply elem_of_list_to_set, elem_of_board_cells. by apply Hin. }
  assert (size Bd = size U) as Hsize.
  { unfold U, Bd. rewrite size_union by done.
    rewrite size_list_to_set by apply NoDup_board_cells.
    pose proof (length_board_cells st Hh Hw). unfold exhausted in Hfull. lia. }
  assert (c ∈ U) as HcU.
  { rewrite (set_subseteq_size_eq U Bd Hsub) by lia.
    by apply elem_of_list_to_set, elem_of_board_cells. }
  unfold U in HcU. set_solver.
Qed.

Lemma make_random_move_cons (st : MinesweeperAI) (move : Cell) (draws : list Cell) :
  MinesweeperAI.make_random_move st (move :: draws)
  = if decide (free st move) then Some (Some move)
    else if decide (exhausted st) then Some None
    else MinesweeperAI.make_random_move st draws.
Proof.
  simpl. destruct (decide (free st move)) as [[H1 H2] | Hn].
  - by rewrite (bool_decide_eq_true_2 _ H1), (bool_decide_eq_true_2 _ H2).
  - assert (bool_decide (move ∉ moves_made st) && bool_decide (move ∉ mines st)
            = false) as ->.
    { apply andb_false_iff. rewrite !bool_decide_eq_false.
      unfold free in Hn. apply not_and_l in Hn. tauto. }
    unfold exhausted. by case_bool_decide; case_decide.
Qed.

(** ** Reaching a state by a list of calls *)

Lemma replay_reachable ok h w fuel (calls : list call) (st st' : MinesweeperAI) :
  reachable ok h w st → replay_ok ok fuel st calls →
  replay fuel st calls = Some st' → reachable ok h w st'.
Proof.
  revert st. induction calls as [| o calls IH]; intros st Hst Hok Hrun; simpl in *.
  - by injection Hrun as <-.
  - destruct Hok as [Ho Hok].
    destruct (perform fuel st o) as [st1 |] eqn:Hp; [| done].
    apply (IH st1); [| done | done]. by eapply reachable_call.
Qed.

(** * The claims *)

(** ** Subsumption (C1) *)

(** C1.  One visit: when the nested loops of the fixpoint procedure visit
    a pair of different sentences [s1], [s2] with the cells of [s1] among
    those of [s2], the candidate with the cells [cells s2 ∖ cells s1] and
    the count [count s2 - count s1] is appended to the knowledge (and the
    round marked as changed) exactly when it has a cell and no equal
    sentence is in the knowledge already; otherwise the knowledge stays as
    it is; and the loops go on with the next [s2].
    Every pair: when [update_knowledge] returns, its last round has visited
    every ordered pair of positions of the returned knowledge, in the
    returned state and without a change; so for any two sentences of the
    returned knowledge with the cells of the first among those of the
    second, the candidate is in the knowledge, unless it has no cell.  On
    knowledge that is true of a mine assignment the procedure does return.
    Validity: under every mine assignment [M] with exactly [count s1] mines
    among the cells of [s1] and [count s2] among those of [s2], there are
    exactly [count s2 - count s1] mines among the cells of the candidate. *)
Theorem subsumption_step :
  (∀ (c : config) (i j : nat) (s1 s2 : Sentence),
      at_pc c = Combine i j →
      knowledge (ai c) !! i = Some s1 → knowledge (ai c) !! j = Some s2 →
      s1 ≠ s2 → cells s1 ⊆ cells s2 →
      let K := knowledge (ai c) in
      let new_sentence :=
        {| cells := cells s2 ∖ cells s1; count := count s2 - count s1 |} in
      let c' := MinesweeperAI.step c in
      (if bool_decide (cells new_sentence ≠ ∅ ∧ new_sentence ∉ K)
       then knowledge (ai c') = K ++ [new_sentence] ∧ changed c' = true
       else knowledge (ai c') = K ∧ changed c' = changed c)
      ∧ at_pc c' = Combine i (S j))
  ∧ (∀ (fuel : nat) (st st' : MinesweeperAI),
        MinesweeperAI.update_knowledge fuel st = Some st' →
        (∀ i j s1 s2,
            knowledge st' !! i = Some s1 → knowledge st' !! j = Some s2 →
            ∃ n, (n < fuel)%nat
                 ∧ steps n (MinesweeperAI.enter st)
                   = {| ai := st'; changed := false; at_pc := Combine i j |}
                 ∧ ai (steps (S n) (MinesweeperAI.enter st)) = st'
                 ∧ changed (steps (S n) (MinesweeperAI.enter st)) = false)
        ∧ (∀ s1 s2,
              s1 ∈ knowledge st' → s2 ∈ knowledge st' →
              cells s1 ⊆ cells s2 → cells s2 ∖ cells s1 ≠ ∅ →
              {| cells := cells s2 ∖ cells s1; count := count s2 - count s1 |}
                ∈ knowledge st'))
  ∧ (∀ (M : gset Cell) (st : MinesweeperAI),
        sound M st →
        ∃ fuel st', MinesweeperAI.update_knowledge fuel st = Some st')
  ∧ (∀ (M : gset Cell) (s1 s2 : Sentence),
        cells s1 ⊆ cells s2 →
        count s1 = Z.of_nat (size (cells s1 ∩ M)) →
        count s2 = Z.of_nat (size (cells s2 ∩ M)) →
        count s2 - count s1 = Z.of_nat (size ((cells s2 ∖ cells s1) ∩ M))).
Proof.
  split_and!.
  - intros c i j s1 s2 Hpc Hi Hj Hne Hsub K new_sentence c'.
    change new_sentence with (candidate s1 s2). split.
    + unfold c', MinesweeperAI.step. rewrite Hpc, Hi, Hj. fold K.
      case_bool_decide as Hadd.
      * destruct Hadd as [Hcells Hnew]. by rewrite combine_body_add.
      * rewrite combine_body_skip; [done |].
        intros (_ & _ & ? & ?). by apply Hadd.
    + unfold c', MinesweeperAI.step. by rewrite Hpc, Hi, Hj.
  - intros fuel st st' Hrun.
    pose proof (update_knowledge_stable _ _ _ Hrun) as [_ Hclosed]. split.
    + intros i j s1 s2 Hi Hj.
      destruct (update_knowledge_visits fuel st st' i j Hrun)
        as (n & Hlt & Hn);
        [by apply lookup_lt_Some in Hi | by apply lookup_lt_Some in Hj |].
      exists n. split; [done |]. split; [done |].
      rewrite steps_S, Hn. unfold MinesweeperAI.step. simpl.
      rewrite Hi, Hj.
      destruct (productive_cases s1 s2 (knowledge st') false)
        as [[Hp _] | [_ ->]]; [| simpl; by rewrite set_knowledge_same].
      destruct (Hclosed s1 s2); [| | done].
      * by apply list_elem_of_lookup_2 in Hi.
      * by apply list_elem_of_lookup_2 in Hj.
    + intros s1 s2 H1 H2 Hsub Hne. fold (candidate s1 s2).
      destruct (decide (candidate s1 s2 ∈ knowledge st')) as [| Hnot];
        [done |].
      destruct (Hclosed s1 s2 H1 H2). split_and!; try done.
      intros ->. apply Hne. set_solver.
  - intros M st Hsound. by apply (update_knowledge_returns M).
  - intros M s1 s2 Hsub H1 H2. by apply (holds_difference M s1 s2).
Qed.

(** ** Recording an observation (C5) *)

(** C5.  [add_knowledge(cell, count)] runs the fixpoint procedure on the
    state in which the cell is a move made and safe, every sentence has
    lost the cell, and the knowledge ends with the new sentence, if that
    has a cell.  The neighbours are the cells of the board that are adjacent
    to the cell and differ from it, at most 8 and without repetition.  The
    new sentence holds the neighbours that are neither safe nor mines, and
    its count is the reported one less the number of neighbours that are
    mines (and not dropped as safe before). *)
Theorem observation_ingestion (fuel : nat) (st : MinesweeperAI) (cell : Cell)
    (k : Z) :
  let neighbors := MinesweeperAI.get_neighbors st cell in
  let st1 := MinesweeperAI.record_observation st cell k in
  let unknown : gset Cell := list_to_set neighbors ∖ safes st1 ∖ mines st1 in
  let known : gset Cell := (list_to_set neighbors ∩ mines st1) ∖ safes st1 in
  MinesweeperAI.add_knowledge fuel st cell k
  = MinesweeperAI.update_knowledge fuel st1
  ∧ (∀ n, n ∈ neighbors ↔ in_board st n ∧ adjacent cell n)
  ∧ NoDup neighbors ∧ (length neighbors ≤ 8)%nat
  ∧ moves_made st1 = moves_made st ∪ {[cell]}
  ∧ safes st1 = safes st ∪ {[cell]}
  ∧ mines st1 = mines st
  ∧ height st1 = height st ∧ width st1 = width st
  ∧ knowledge st1
    = (Sentence.mark_safe cell <$> knowledge st)
      ++ (if bool_decide (unknown = ∅) then []
          else [{| cells := unknown;
                   count := k - Z.of_nat (size known) |}]).
Proof.
  intros neighbors st1 unknown known.
  assert (st1 = MinesweeperAI.record_observation st cell k) as Hst1 by done.
  rewrite record_observation_closed in Hst1. simpl in Hst1.
  assert (safes st1 = safes st ∪ {[cell]}) as Hsafes by (by rewrite Hst1).
  assert (mines st1 = mines st) as Hmines by (by rewrite Hst1).
  assert (unknown = unknown_neighbors st cell) as Hu.
  { unfold unknown. by rewrite Hsafes, Hmines. }
  assert (known = known_mine_neighbors st cell) as Hk.
  { unfold known. by rewrite Hsafes, Hmines. }
  split_and!.
  - done.
  - intros n. apply elem_of_get_neighbors.
  - apply NoDup_get_neighbors.
  - apply length_get_neighbors.
  - by rewrite Hst1.
  - done.
  - done.
  - by rewrite Hst1.
  - by rewrite Hst1.
  - rewrite Hu, Hk, Hst1. simpl.
    case_decide; case_bool_decide; try done. by rewrite app_nil_r.
Qed.

(** ** Invariants of truthful play (C6, C7) *)

(** C6.  When every call tells the truth about one mine assignment [M],
    every sentence of the knowledge has a count between 0 and the number of
    its cells: in every reachable state, and after every loop iteration of
    the fixpoint procedure that a truthful observation starts. *)
Theorem count_invariant (M : gset Cell) (h w : Z) (st : MinesweeperAI) :
  reachable (truthful M) h w st →
  (∀ s, s ∈ knowledge st → 0 <= count s <= Z.of_nat (size (cells s)))
  ∧ ∀ cell k n s,
      truthful M st (AddKnowledge cell k) →
      s ∈ knowledge
            (ai (steps n (MinesweeperAI.enter
                            (MinesweeperAI.record_observation st cell k)))) →
      0 <= count s <= Z.of_nat (size (cells s)).
Proof.
  intros Hsound%reachable_sound. split.
  - intros s Hs. apply (holds_bounded M). by apply Hsound.
  - intros cell k n s [Hc Hk] Hs. apply (holds_bounded M).
    eapply (steps_sound M n); [| done]. simpl.
    by apply record_observation_sound.
Qed.

(** C7, as amended.  In every state reached from a fresh instance by calls
    that do not contradict what is known when they are made (no known mine
    is revealed or marked as safe, no known safe cell is marked as a mine;
    the counts are not restricted), no cell is both a known mine and a
    known safe cell; and a further call that returns keeps the two sets
    disjoint exactly when it does not contradict what is known either. *)
Theorem mines_safes_disjoint (h w : Z) (st : MinesweeperAI) :
  reachable uncontradicted h w st →
  mines st ## safes st
  ∧ ∀ o fuel st',
      perform fuel st o = Some st' →
      (mines st' ## safes st' ↔ uncontradicted st o).
Proof.
  intros Hreach. split; [by apply (reachable_disjoint h w) |].
  intros o fuel st' Hrun. split.
  - intros Hd. destruct (decide (uncontradicted st o)) as [| Hno]; [done |].
    destruct (contradicted_overlap fuel st st' o Hno Hrun) as (c & ? & ?).
    set_solver.
  - intros Hok. apply (reachable_disjoint h w).
    by apply (reachable_call _ h w st o fuel).
Qed.

(** ** The knowledge after [add_knowledge] (C10) *)

(** C10.  In a state reached from a fresh instance by any calls, when
    [add_knowledge] returns, every sentence of the knowledge has a cell,
    only cells of the board, and no cell that is a known mine or a known
    safe cell. *)
Theorem knowledge_hygiene (h w : Z) (st st' : MinesweeperAI) (fuel : nat)
    (cell : Cell) (k : Z) :
  reachable any_call h w st →
  MinesweeperAI.add_knowledge fuel st cell k = Some st' →
  ∀ s, s ∈ knowledge st' →
       cells s ≠ ∅
       ∧ (∀ c, c ∈ cells s → 0 <= c.1 < height st' ∧ 0 <= c.2 < width st')
       ∧ cells s ## mines st' ∧ cells s ## safes st'.
Proof.
  intros Hreach Hrun.
  assert (reachable any_call h w st') as Hreach'.
  { by apply (reachable_call any_call h w st (AddKnowledge cell k) fuel). }
  pose proof (reachable_tidy _ _ _ _ Hreach') as Htidy.
  pose proof (reachable_on_board _ _ _ _ Hreach') as Hboard.
  apply update_knowledge_stable in Hrun as [Hrest _].
  intros s Hs. destruct (Hrest s Hs) as (Hne & _ & _).
  specialize (Htidy s Hs). split_and!; try done.
  - intros c Hc. by apply (Hboard s c).
  - set_solver.
  - set_solver.
Qed.

(** ** Extraction (C2) *)

Lemma run_from (fuel n : nat) (c : config) (st' : MinesweeperAI) :
  MinesweeperAI.run fuel c = Some st' → rtc infers (ai (steps n c)) st'.
Proof.
  intros [Hh <-]%run_steps. destruct (decide (n ≤ fuel)%nat) as [Hle | Hgt].
  - replace fuel with (n + (fuel - n))%nat by lia. rewrite steps_add.
    apply steps_infers.
  - rewrite (steps_stay_halted fuel n c) by (done || lia). done.
Qed.

(** What is left when [update_knowledge] returns, whatever the knowledge
    it started from. *)
Lemma nothing_left_to_extract (st st' : MinesweeperAI) (fuel : nat) :
  MinesweeperAI.update_knowledge fuel st = Some st' →
  ∀ t, t ∈ knowledge st' →
       cells t ≠ ∅ ∧ count t ≠ 0 ∧ count t ≠ Z.of_nat (size (cells t)).
Proof. intros Hrun. by destruct (update_knowledge_stable _ _ _ Hrun). Qed.

(** C2, as amended.  When [update_knowledge] returns: if the knowledge it
    started from is true of a mine assignment [M], then for every sentence
    that is in the knowledge after any number of loop iterations of the
    run, all its cells are known mines at the return if it has as many
    mines as cells, and all its cells are known safe cells at the return
    if its count is 0.  With or without that premise, no sentence that
    remains has the count 0, as many mines as cells, or no cell. *)
Theorem extraction_complete (st st' : MinesweeperAI) (fuel : nat) :
  MinesweeperAI.update_knowledge fuel st = Some st' →
  (∀ (M : gset Cell) (n : nat) (s : Sentence),
      sound M st →
      s ∈ knowledge (ai (steps n (MinesweeperAI.enter st))) →
      (count s = Z.of_nat (size (cells s)) → cells s ⊆ mines st')
      ∧ (count s = 0 → cells s ⊆ safes st'))
  ∧ ∀ t, t ∈ knowledge st' →
         cells t ≠ ∅ ∧ count t ≠ 0 ∧ count t ≠ Z.of_nat (size (cells t)).
Proof.
  intros Hrun. split; [| by apply (nothing_left_to_extract st st' fuel)].
  intros M n s Hsound Hs.
  pose proof (update_knowledge_stable _ _ _ Hrun) as Hrest.
  pose proof (run_from fuel n _ _ Hrun) as Hrtc.
  pose proof (steps_sound M n (MinesweeperAI.enter st) Hsound) as Hsound'.
  by destruct (run_extracts M s _ _ Hsound' Hrtc Hrest Hs).
Qed.

(** ** Termination (C3) *)

(** C3, as amended.  In every state reached by calls that tell the truth
    about one mine assignment [M], the fixpoint procedure that a truthful
    observation starts halts: with enough fuel [add_knowledge] returns. *)
Theorem update_knowledge_terminates (M : gset Cell) (h w : Z)
    (st : MinesweeperAI) (cell : Cell) (k : Z) :
  reachable (truthful M) h w st →
  truthful M st (AddKnowledge cell k) →
  ∃ fuel st', MinesweeperAI.add_knowledge fuel st cell k = Some st'
              ∧ ∀ fuel', (fuel ≤ fuel')%nat →
                         MinesweeperAI.add_knowledge fuel' st cell k = Some st'.
Proof.
  intros Hsound%reachable_sound [Hc Hk].
  destruct (update_knowledge_returns M
              (MinesweeperAI.record_observation st cell k))
    as (fuel & st' & Hrun); [by apply record_observation_sound |].
  exists fuel, st'. split; [done |]. intros fuel' Hle.
  by apply (run_mono fuel fuel').
Qed.

(** ** Order of visiting (C8) *)

(** C8, as amended.  On knowledge that is true of a mine assignment and
    mentions no settled cell, the fixpoint procedure returns for every order
    in which the sentences are listed, with the same safe cells, the same
    mines and the same sentences up to their order and number of
    repetitions; and the order in which the cells of a set are marked does
    not matter at all. *)
Theorem fixpoint_order_independent (M : gset Cell) (st : MinesweeperAI)
    (K' : list Sentence) :
  sound M st → tidy st → K' ≡ₚ knowledge st →
  (∃ fuel r1 r2,
      MinesweeperAI.update_knowledge fuel st = Some r1
      ∧ MinesweeperAI.update_knowledge fuel (set_knowledge K' st) = Some r2)
  ∧ (∀ fuel1 fuel2 r1 r2,
        MinesweeperAI.update_knowledge fuel1 st = Some r1 →
        MinesweeperAI.update_knowledge fuel2 (set_knowledge K' st) = Some r2 →
        safes r1 = safes r2 ∧ mines r1 = mines r2
        ∧ ∀ s, s ∈ knowledge r1 ↔ s ∈ knowledge r2)
  ∧ (∀ (X : gset Cell) (l : list Cell) (st0 : MinesweeperAI),
        l ≡ₚ elements X →
        MinesweeperAI.mark_safes l st0
        = MinesweeperAI.mark_safes (elements X) st0
        ∧ MinesweeperAI.mark_mines l st0
          = MinesweeperAI.mark_mines (elements X) st0).
Proof.
  intros Hsound Htidy Hperm.
  assert (∀ s, s ∈ K' ↔ s ∈ knowledge st) as HK.
  { intros s. by rewrite Hperm. }
  assert (sound M (set_knowledge K' st)) as Hsound'.
  { destruct Hsound as (? & ? & HKs). split_and!; try done.
    intros s Hs. by apply HKs, HK. }
  split_and!.
  - destruct (update_knowledge_returns M st Hsound) as (f1 & r1 & H1).
    destruct (update_knowledge_returns M _ Hsound') as (f2 & r2 & H2).
    exists (f1 `max` f2)%nat, r1, r2. split.
    + apply (run_mono f1); [lia | done].
    + apply (run_mono f2); [lia | done].
  - intros fuel1 fuel2 r1 r2 H1 H2.
    by apply (update_knowledge_confluent M st (set_knowledge K' st) r1 r2
                fuel1 fuel2).
  - intros X l st0 Hl. split.
    + by apply mark_safes_order.
    + by apply mark_mines_order.
Qed.

(** ** The random move (C9) *)

(** C9, as amended.  With draws on the board, every loop iteration of
    [make_random_move] takes one draw: a drawn cell that is neither a move
    made nor a known mine is returned, also when the sizes of the two sets
    add up to the size of the board; for another cell, [None] is returned
    when the sizes add up, and the loop goes on with the next draw when
    they do not.  So the call returns the first free draw when the sizes do
    not add up, decides at the first draw when they do, and keeps looping
    as long as no draw is free and the sizes do not add up.  A move that is
    returned is a cell of the board that is neither a move made nor a known
    mine; [None] is returned only when the sizes add up; and when the two
    sets are disjoint sets of cells of the board whose sizes add up to the
    size of the board, [None] is returned at the first draw. *)
Theorem make_random_move_contract (st : MinesweeperAI) (draws : list Cell) :
  Forall (in_board st) draws →
  (∀ c, MinesweeperAI.make_random_move st draws = Some (Some c) →
        in_board st c ∧ c ∉ moves_made st ∧ c ∉ mines st)
  ∧ (MinesweeperAI.make_random_move st draws = Some None → exhausted st)
  ∧ (MinesweeperAI.make_random_move st draws = None →
     ∀ c, c ∈ draws → ¬ free st c ∧ ¬ exhausted st)
  ∧ ((∃ c, c ∈ draws ∧ (free st c ∨ exhausted st)) →
     MinesweeperAI.make_random_move st draws ≠ None)
  ∧ (moves_made st ## mines st →
     (∀ x, x ∈ moves_made st ∪ mines st → in_board st x) →
     exhausted st → draws ≠ [] →
     MinesweeperAI.make_random_move st draws = Some None)
  ∧ (∀ taken c rest,
        draws = taken ++ c :: rest →
        (∀ d, d ∈ taken → ¬ free st d) → free st c → ¬ exhausted st →
        MinesweeperAI.make_random_move st draws = Some (Some c))
  ∧ (∀ d rest,
        draws = d :: rest → exhausted st →
        MinesweeperAI.make_random_move st draws
        = if decide (free st d) then Some (Some d) else Some None)
  ∧ ((∀ d, d ∈ draws → ¬ free st d) → ¬ exhausted st ∨ draws = [] →
     MinesweeperAI.make_random_move st draws = None).
Proof.
  intros Hdraws. split_and!.
  - induction Hdraws as [| d draws Hd _ IH]; [done |].
    intros c. rewrite make_random_move_cons.
    destruct (decide (free st d)) as [[? ?] | ?].
    + by intros [= <-].
    + destruct (decide (exhausted st)); [done | apply IH].
  - induction Hdraws as [| d draws Hd _ IH]; [done |].
    rewrite make_random_move_cons.
    destruct (decide (free st d)); [done |].
    by destruct (decide (exhausted st)).
  - induction Hdraws as [| d draws Hd _ IH].
    + intros _ c Hc. by apply elem_of_nil in Hc.
    + rewrite make_random_move_cons.
      destruct (decide (free st d)); [done |].
      destruct (decide (exhausted st)); [done |].
      intros Hrun c [-> | Hc]%elem_of_cons; [done | by apply IH].
  - induction Hdraws as [| d draws Hd _ IH].
    + intros (c & Hc & _). by apply elem_of_nil in Hc.
    + rewrite make_random_move_cons.
      destruct (decide (free st d)); [done |].
      destruct (decide (exhausted st)); [done |].
      intros (c & [-> | Hc]%elem_of_cons & Hfree); [tauto |].
      apply IH. eauto.
  - intros Hdisj Hboard Hfull Hne.
    destruct Hdraws as [| d draws Hd _]; [done |].
    rewrite make_random_move_cons.
    rewrite decide_False by by apply exhausted_no_free.
    by rewrite decide_True.
  - clear Hdraws. intros taken c rest -> Htaken Hfree Hopen.
    induction taken as [| d taken IH]; simpl app;
      rewrite make_random_move_cons.
    + by rewrite decide_True.
    + rewrite decide_False by (apply Htaken; left).
      rewrite decide_False by done.
      apply IH. intros d' Hd'. apply Htaken. by right.
  - intros d rest -> Hfull. rewrite make_random_move_cons.
    destruct (decide (free st d)); [done |]. by rewrite decide_True.
  - clear Hdraws. intros Htaken [Hopen | ->]; [| done].
    induction draws as [| d draws IH]; [done |].
    rewrite make_random_move_cons.
    rewrite decide_False by (apply Htaken; left).
    rewrite decide_False by done.
    apply IH. intros d' Hd'. apply Htaken. by right.
Qed.

(** * Concrete games *)

(** Closed decidable facts are settled by evaluation. *)
Ltac by_evaluation := apply (bool_decide_unpack _); vm_compute; exact I.

(** ** The second scenario of the specification: [{A,B,C} = 1] and
    [{A,B} = 1] *)

Lemma subsumption_step_witness :
  (knowledge (ai (MinesweeperAI.step pair_visit)) = [AB1; ABC1; C0]
   ∧ changed (MinesweeperAI.step pair_visit) = true)
  ∧ ∃ st',
      MinesweeperAI.update_knowledge 40 nested_pair = Some st'
      ∧ CD1 ∈ knowledge st'
      ∧ ∃ n, (n < 40)%nat
             ∧ steps n (MinesweeperAI.enter nested_pair)
               = {| ai := st'; changed := false; at_pc := Combine 0 1 |}.
Proof.
  destruct subsumption_step as (Hvisit & Hrun & _ & _). split.
  - assert (AB1 ≠ ABC1) as Hne. { by_evaluation. }
    assert (cells AB1 ⊆ cells ABC1) as Hsub. { by_evaluation. }
    destruct (Hvisit pair_visit 0%nat 1%nat AB1 ABC1
                eq_refl eq_refl eq_refl Hne Hsub) as (Hadd & _).
    rewrite bool_decide_eq_true_2 in Hadd; [| by_evaluation].
    destruct Hadd as [-> ->]. split; [| done].
    vm_compute. reflexivity.
  - eexists. split; [vm_compute; reflexivity |].
    edestruct (Hrun 40%nat nested_pair) as [Hpairs Hclosed];
      [vm_compute; reflexivity |].
    split.
    + assert (CD1 = {| cells := cells ABCD2 ∖ cells AB1;
                       count := count ABCD2 - count AB1 |}) as ->.
      { vm_compute. reflexivity. }
      apply Hclosed; by_evaluation.
    + destruct (Hpairs 0%nat 1%nat AB1 ABCD2 eq_refl eq_refl)
        as (n & Hlt & Hn & _).
      by exists n.
Defined.

(** ** A truthful game on a 3 by 3 board with one mine *)

Lemma after_opening_reachable : reachable (truthful one_mine) 3 3 after_opening.
Proof.
  apply (replay_reachable _ 3 3 20 opening (MinesweeperAI.init 3 3)).
  - apply reachable_init.
  - by_evaluation.
  - vm_compute. reflexivity.
Qed.

Lemma reachable_mono (ok ok' : MinesweeperAI → call → Prop) h w st :
  (∀ st o, ok st o → ok' st o) → reachable ok h w st → reachable ok' h w st.
Proof.
  intros Hok. induction 1 as [| st o fuel st' _ IH Ho Hrun].
  - apply reachable_init.
  - eapply reachable_call; eauto.
Qed.

Lemma extraction_complete_witness :
  ∃ st',
    MinesweeperAI.update_knowledge 20
      (MinesweeperAI.record_observation after_opening (1,0) 0) = Some st'
    ∧ cells second_row ⊆ safes st'
    ∧ ∀ t, t ∈ knowledge st' →
           cells t ≠ ∅ ∧ count t ≠ 0 ∧ count t ≠ Z.of_nat (size (cells t)).
Proof.
  destruct (MinesweeperAI.update_knowledge 20
              (MinesweeperAI.record_observation after_opening (1,0) 0))
    as [st' |] eqn:Hrun; [| by vm_compute in Hrun].
  exists st'. split; [done |].
  destruct (extraction_complete _ st' 20 Hrun) as [Hfound Hleft].
  split; [| exact Hleft].
  apply (Hfound one_mine 0%nat second_row).
  - apply record_observation_sound; [by_evaluation | by_evaluation |].
    apply reachable_sound with (h := 3) (w := 3). apply after_opening_reachable.
  - by_evaluation.
  - reflexivity.
Defined.

Lemma update_knowledge_terminates_witness :
  ∃ fuel st',
    MinesweeperAI.add_knowledge fuel after_opening (1,0) 0 = Some st'
    ∧ ∀ fuel', (fuel ≤ fuel')%nat →
               MinesweeperAI.add_knowledge fuel' after_opening (1,0) 0 = Some st'.
Proof.
  apply (update_knowledge_terminates one_mine 3 3).
  - apply after_opening_reachable.
  - by_evaluation.
Defined.

Lemma count_invariant_witness :
  (∀ s, s ∈ knowledge after_opening →
        0 <= count s <= Z.of_nat (size (cells s)))
  ∧ ∀ cell k n s,
      truthful one_mine after_opening (AddKnowledge cell k) →
      s ∈ knowledge
            (ai (steps n (MinesweeperAI.enter
                   (MinesweeperAI.record_observation after_opening cell k)))) →
      0 <= count s <= Z.of_nat (size (cells s)).
Proof.
  apply (count_invariant one_mine 3 3). apply after_opening_reachable.
Defined.

(** ** Reports that no mine assignment allows, and that contradict nothing
    known *)

Lemma overcounted_reachable : reachable uncontradicted 1 4 overcounted.
Proof.
  apply (replay_reachable _ 1 4 20
           [AddKnowledge (0,0) 1; AddKnowledge (0,2) 3]
           (MinesweeperAI.init 1 4)).
  - apply reachable_init.
  - by_evaluation.
  - vm_compute. reflexivity.
Qed.

Lemma mines_safes_disjoint_witness :
  mines overcounted = {[ (0,1) ]}
  ∧ safes overcounted = {[ (0,0); (0,2) ]}
  ∧ mines overcounted ## safes overcounted
  ∧ ∃ st',
      perform 20 overcounted (AddKnowledge (0,1) 0) = Some st'
      ∧ (mines st' ## safes st'
         ↔ uncontradicted overcounted (AddKnowledge (0,1) 0)).
Proof.
  split; [reflexivity |]. split; [reflexivity |].
  destruct (mines_safes_disjoint 1 4 overcounted overcounted_reachable)
    as [Hdisjoint Hnext].
  split; [exact Hdisjoint |].
  eexists. split; [vm_compute; reflexivity |].
  apply (Hnext (AddKnowledge (0,1) 0) 20%nat). vm_compute. reflexivity.
Defined.

Lemma knowledge_hygiene_witness :
  ∃ st',
    MinesweeperAI.add_knowledge 20 after_opening (0,2) 0 = Some st'
    ∧ ∀ s, s ∈ knowledge st' →
           cells s ≠ ∅
           ∧ (∀ c, c ∈ cells s → 0 <= c.1 < height st' ∧ 0 <= c.2 < width st')
           ∧ cells s ## mines st' ∧ cells s ## safes st'.
Proof.
  eexists. split; [vm_compute; reflexivity |].
  apply (knowledge_hygiene 3 3 after_opening _ 20 (0,2) 0).
  - apply (reachable_mono (truthful one_mine)); [done |].
    apply after_opening_reachable.
  - vm_compute. reflexivity.
Defined.

Lemma make_random_move_contract_witness :
  (MinesweeperAI.make_random_move after_opening [(0,0); (2,2)]
   = Some (Some (2,2))
   ∧ in_board after_opening (2,2)
   ∧ (2,2) ∉ moves_made after_opening ∧ (2,2) ∉ mines after_opening)
  ∧ exhausted counted_twice
  ∧ MinesweeperAI.make_random_move counted_twice [(0,2); (0,0)]
    = Some (Some (0,2))
  ∧ MinesweeperAI.make_random_move counted_twice [(0,0); (0,2)] = Some None.
Proof.
  split.
  - assert (Forall (in_board after_opening) [(0,0); (2,2)]) as Hdraws.
    { repeat constructor; simpl; lia. }
    destruct (make_random_move_contract after_opening _ Hdraws)
      as (Hmove & _ & _ & _ & _ & Hfirst & _).
    assert (MinesweeperAI.make_random_move after_opening [(0,0); (2,2)]
            = Some (Some (2,2))) as Hrun.
    { apply (Hfirst [(0,0)] (2,2) []); [done | | by_evaluation | by_evaluation].
      intros d ->%list_elem_of_singleton. by_evaluation. }
    split; [done |]. by apply Hmove.
  - assert (exhausted counted_twice) as Hfull. { by_evaluation. }
    split; [done |]. split.
    + assert (Forall (in_board counted_twice) [(0,2); (0,0)]) as Hdraws.
      { repeat constructor; simpl; lia. }
      destruct (make_random_move_contract counted_twice _ Hdraws)
        as (_ & _ & _ & _ & _ & _ & Hdecided & _).
      rewrite (Hdecided (0,2) [(0,0)] eq_refl Hfull).
      apply decide_True. by_evaluation.
    + assert (Forall (in_board counted_twice) [(0,0); (0,2)]) as Hdraws.
      { repeat constructor; simpl; lia. }
      destruct (make_random_move_contract counted_twice _ Hdraws)
        as (_ & _ & _ & _ & _ & _ & Hdecided & _).
      rewrite (Hdecided (0,0) [(0,2)] eq_refl Hfull).
      apply decide_False. by_evaluation.
Defined.

(** ** Observations that contradict each other *)

Lemma revealed_mine_reachable : reachable any_call 1 2 revealed_mine.
Proof.
  apply (replay_reachable _ 1 2 20
           [AddKnowledge (0,0) 1; AddKnowledge (0,1) 0]
           (MinesweeperAI.init 1 2)).
  - apply reachable_init.
  - by_evaluation.
  - vm_compute. reflexivity.
Qed.

(** C7 as stated fails: a cell can be a known mine and a known safe cell. *)
Lemma mines_safes_overlap :
  reachable any_call 1 2 revealed_mine
  ∧ (0,1) ∈ mines revealed_mine ∧ (0,1) ∈ safes revealed_mine.
Proof.
  split; [apply revealed_mine_reachable |]. split; by_evaluation.
Qed.

Lemma counted_twice_reachable : reachable any_call 1 3 counted_twice.
Proof.
  apply (replay_reachable _ 1 3 20
           [AddKnowledge (0,0) 1; AddKnowledge (0,1) 0]
           (MinesweeperAI.init 1 3)).
  - apply reachable_init.
  - by_evaluation.
  - vm_compute. reflexivity.
Qed.

(** C9 as stated fails: a move is returned although the two sizes add up to
    the size of the board. *)
Lemma random_move_when_exhausted :
  reachable any_call 1 3 counted_twice
  ∧ Z.of_nat (size (moves_made counted_twice))
    + Z.of_nat (size (mines counted_twice))
    = height counted_twice * width counted_twice
  ∧ MinesweeperAI.make_random_move counted_twice [(0,2)] = Some (Some (0,2)).
Proof.
  split; [apply counted_twice_reachable |].
  split; vm_compute; reflexivity.
Qed.

Lemma two_reports_reachable : reachable any_call 2 2 two_reports.
Proof.
  apply (replay_reachable _ 2 2 20
           [AddKnowledge (0,0) 1; AddKnowledge (0,1) 1]
           (MinesweeperAI.init 2 2)).
  - apply reachable_init.
  - by_evaluation.
  - vm_compute. reflexivity.
Qed.

(** C2 as stated fails: a sentence with count 0 is in the knowledge when
    the fixpoint procedure starts, and its cell is a mine, not a safe cell,
    when the procedure returns. *)
Lemma extraction_incomplete :
  reachable any_call 2 2 two_reports
  ∧ ∃ st',
      last_cell_clear
        ∈ knowledge (MinesweeperAI.record_observation two_reports (1,0) 0)
      ∧ count last_cell_clear = 0
      ∧ MinesweeperAI.update_knowledge 20
          (MinesweeperAI.record_observation two_reports (1,0) 0) = Some st'
      ∧ (1,1) ∈ cells last_cell_clear
      ∧ (1,1) ∉ safes st' ∧ (1,1) ∈ mines st'.
Proof.
  split; [apply two_reports_reachable |].
  eexists. split_and!.
  - by_evaluation.
  - reflexivity.
  - vm_compute. reflexivity.
  - by_evaluation.
  - by_evaluation.
  - by_evaluation.
Qed.

Lemma before_spin_reachable : reachable any_call 2 4 before_spin.
Proof.
  apply (replay_reachable _ 2 4 60
           [AddKnowledge (0,0) 1; AddKnowledge (1,0) 1; AddKnowledge (0,2) 2]
           (MinesweeperAI.init 2 4)).
  - apply reachable_init.
  - by_evaluation.
  - vm_compute. reflexivity.
Qed.

Lemma spin_start_reached :
  steps 6 (MinesweeperAI.enter
             (MinesweeperAI.record_observation before_spin (1,2) 3))
  = spin_start.
Proof. vm_compute. reflexivity. Qed.

Lemma spin_start_spinning : spinning column1 column3 spin_start.
Proof.
  exists 0%nat, 0%nat, 3%nat, {| cells := column3; count := 1 |}.
  split_and!; try reflexivity.
  - intros t Ht. simpl in Ht.
    repeat (apply elem_of_cons in Ht as [-> | Ht]); simpl; auto.
    by apply elem_of_nil in Ht.
  - by right.
  - intros t Ht Hn. simpl in Ht.
    repeat (apply elem_of_cons in Ht as [-> | Ht]); try done.
    by apply elem_of_nil in Ht.
  - left. lia.
Qed.

(** C3 as stated fails: in a state reached by calls of the interface,
    [add_knowledge] does not return, whatever the fuel. *)
Lemma update_knowledge_diverges :
  reachable any_call 2 4 before_spin
  ∧ ∀ fuel, MinesweeperAI.add_knowledge fuel before_spin (1,2) 3 = None.
Proof.
  split; [apply before_spin_reachable |]. intros fuel.
  unfold MinesweeperAI.add_knowledge, MinesweeperAI.update_knowledge.
  apply (run_spinning column1 column3 6).
  - by_evaluation.
  - by_evaluation.
  - by_evaluation.
  - rewrite spin_start_reached. apply spin_start_spinning.
Qed.

(** ** A truthful game in which the order of the sentences matters *)

Lemma three_revealed_reachable :
  reachable (truthful four_mines) 3 4 three_revealed.
Proof.
  apply (replay_reachable _ 3 4 60
           [AddKnowledge (0,2) 2; AddKnowledge (1,1) 3; AddKnowledge (2,1) 2]
           (MinesweeperAI.init 3 4)).
  - apply reachable_init.
  - by_evaluation.
  - vm_compute. reflexivity.
Qed.

Lemma last_first_permutation : last_first ≡ₚ knowledge fourth_recorded.
Proof.
  unfold last_first. rewrite Permutation_app_comm. by rewrite take_drop.
Qed.

Lemma fourth_recorded_sound : sound four_mines fourth_recorded.
Proof.
  apply record_observation_sound; [by_evaluation | by_evaluation |].
  apply (reachable_sound _ 3 4), three_revealed_reachable.
Qed.

Lemma fourth_recorded_tidy : tidy fourth_recorded.
Proof.
  apply record_observation_tidy.
  apply (reachable_tidy _ 3 4 _ three_revealed_reachable).
Qed.

(** C8 as stated fails: both orders give the same safe cells and mines, but
    three sentences in one case and four in the other. *)
Lemma knowledge_depends_on_order :
  reachable (truthful four_mines) 3 4 three_revealed
  ∧ truthful four_mines three_revealed (AddKnowledge (0,0) 1)
  ∧ last_first ≡ₚ knowledge fourth_recorded
  ∧ ∃ r1 r2,
      MinesweeperAI.update_knowledge 400 fourth_recorded = Some r1
      ∧ MinesweeperAI.update_knowledge 400
          (set_knowledge last_first fourth_recorded) = Some r2
      ∧ length (knowledge r1) = 3%nat ∧ length (knowledge r2) = 4%nat.
Proof.
  split_and!.
  - apply three_revealed_reachable.
  - by_evaluation.
  - apply last_first_permutation.
  - eexists _, _. split_and!.
    + vm_compute. reflexivity.
    + vm_compute. reflexivity.
    + reflexivity.
    + reflexivity.
Qed.

Lemma fixpoint_order_independent_witness :
  ∃ r1 r2,
    MinesweeperAI.update_knowledge 400 fourth_recorded = Some r1
    ∧ MinesweeperAI.update_knowledge 400
        (set_knowledge last_first fourth_recorded) = Some r2
    ∧ safes r1 = safes r2 ∧ mines r1 = mines r2
    ∧ ∀ s, s ∈ knowledge r1 ↔ s ∈ knowledge r2.
Proof.
  eexists _, _. split; [vm_compute; reflexivity |].
  split; [vm_compute; reflexivity |].
  destruct (fixpoint_order_independent four_mines fourth_recorded last_first
              fourth_recorded_sound fourth_recorded_tidy
              last_first_permutation) as (_ & Hsame & _).
  apply (Hsame 400%nat 400%nat); vm_compute; reflexivity.
Defined.

(** * Further properties of the code *)

(** ** The safe move *)

(** X1.  [make_safe_move] returns a known safe cell that is not a move
    made, and it returns [None] exactly when every known safe cell is a
    move made. *)
Theorem make_safe_move_contract (st : MinesweeperAI) :
  (∀ c, MinesweeperAI.make_safe_move st = Some c →
        c ∈ safes st ∧ c ∉ moves_made st)
  ∧ (MinesweeperAI.make_safe_move st = None ↔ safes st ⊆ moves_made st).
Proof.
  pose proof (make_safe_move_spec st) as Hspec. split; [| split].
  - intros c Hc. by rewrite Hc in Hspec.
  - intros Hn. by rewrite Hn in Hspec.
  - intros Hsub. destruct (MinesweeperAI.make_safe_move st) as [c |]; [| done].
    destruct Hspec as [Hc Hn]. by apply Hsub in Hc.
Qed.

(** X2.  In a game in which every call tells the truth about the mine
    assignment [M], the cell that [make_safe_move] returns is not a mine. *)
Theorem safe_move_is_safe (M : gset Cell) (h w : Z) (st : MinesweeperAI)
    (c : Cell) :
  reachable (truthful M) h w st →
  MinesweeperAI.make_safe_move st = Some c →
  c ∉ M ∧ c ∉ moves_made st.
Proof.
  intros (_ & Hs & _)%reachable_sound Hc.
  pose proof (make_safe_move_spec st) as Hspec. rewrite Hc in Hspec.
  destruct Hspec. split; [set_solver | done].
Qed.

Lemma safe_move_is_safe_witness :
  ∃ c, MinesweeperAI.make_safe_move after_opening = Some c
       ∧ c ∉ one_mine ∧ c ∉ moves_made after_opening.
Proof.
  eexists. split; [vm_compute; reflexivity |].
  apply (safe_move_is_safe one_mine 3 3 after_opening).
  - apply after_opening_reachable.
  - vm_compute. reflexivity.
Defined.

(** ** Marking cells *)

Lemma mark_mine_absent (c : Cell) (s : Sentence) :
  c ∉ cells s → Sentence.mark_mine c s = s.
Proof. intros Hc. unfold Sentence.mark_mine. by rewrite decide_False. Qed.

Lemma mark_safe_absent (c : Cell) (s : Sentence) :
  c ∉ cells s → Sentence.mark_safe c s = s.
Proof. intros Hc. unfold Sentence.mark_safe. by rewrite decide_False. Qed.

Lemma sentence_mark_mine_twice (c : Cell) (s : Sentence) :
  Sentence.mark_mine c (Sentence.mark_mine c s) = Sentence.mark_mine c s.
Proof.
  apply mark_mine_absent. rewrite cells_mark_mine. set_solver.
Qed.

Lemma sentence_mark_safe_twice (c : Cell) (s : Sentence) :
  Sentence.mark_safe c (Sentence.mark_safe c s) = Sentence.mark_safe c s.
Proof.
  apply mark_safe_absent. rewrite cells_mark_safe. set_solver.
Qed.

(** X3.  Marking is idempotent: marking the same cell twice, as a mine or
    as safe, gives the state that marking it once gives; and once a cell
    was marked either way, marking it the other way changes no sentence. *)
Theorem marking_idempotent (c : Cell) (st : MinesweeperAI) :
  MinesweeperAI.mark_mine c (MinesweeperAI.mark_mine c st)
  = MinesweeperAI.mark_mine c st
  ∧ MinesweeperAI.mark_safe c (MinesweeperAI.mark_safe c st)
    = MinesweeperAI.mark_safe c st
  ∧ knowledge (MinesweeperAI.mark_mine c (MinesweeperAI.mark_safe c st))
    = knowledge (MinesweeperAI.mark_safe c st)
  ∧ knowledge (MinesweeperAI.mark_safe c (MinesweeperAI.mark_mine c st))
    = knowledge (MinesweeperAI.mark_mine c st).
Proof.
  split_and!.
  - apply state_eq; simpl; try done; [set_solver |].
    rewrite <- list_fmap_compose. apply list_fmap_ext. intros _ s _. simpl.
    apply sentence_mark_mine_twice.
  - apply state_eq; simpl; try done; [set_solver |].
    rewrite <- list_fmap_compose. apply list_fmap_ext. intros _ s _. simpl.
    apply sentence_mark_safe_twice.
  - simpl. rewrite <- list_fmap_compose. apply list_fmap_ext. intros _ s _.
    simpl. apply mark_mine_absent. rewrite cells_mark_safe. set_solver.
  - simpl. rewrite <- list_fmap_compose. apply list_fmap_ext. intros _ s _.
    simpl. apply mark_safe_absent. rewrite cells_mark_mine. set_solver.
Qed.

Lemma count_mark_safe (c : Cell) (s : Sentence) :
  count (Sentence.mark_safe c s) = count s.
Proof. unfold Sentence.mark_safe. by case_decide. Qed.

Lemma count_mark_mine (c : Cell) (s : Sentence) :
  count (Sentence.mark_mine c s)
  = if decide (c ∈ cells s) then count s - 1 else count s.
Proof. unfold Sentence.mark_mine. by case_decide. Qed.

Lemma sentence_marks_commute (a b : Cell) (s : Sentence) :
  a ≠ b →
  Sentence.mark_safe a (Sentence.mark_mine b s)
  = Sentence.mark_mine b (Sentence.mark_safe a s).
Proof.
  intros Hne. apply sentence_eq.
  - rewrite !cells_mark_safe, !cells_mark_mine, cells_mark_safe. set_solver.
  - rewrite count_mark_safe, !count_mark_mine, count_mark_safe, cells_mark_safe.
    destruct (decide (b ∈ cells s)) as [Hb | Hb].
    + by rewrite decide_True by set_solver.
    + by rewrite decide_False by set_solver.
Qed.

(** X4.  Marking one cell as a mine and a different cell as safe gives the
    same state in either order. *)
Theorem marking_commutes (a b : Cell) (st : MinesweeperAI) :
  a ≠ b →
  MinesweeperAI.mark_safe a (MinesweeperAI.mark_mine b st)
  = MinesweeperAI.mark_mine b (MinesweeperAI.mark_safe a st).
Proof.
  intros Hne. apply state_eq; simpl; try done.
  rewrite <- !list_fmap_compose. apply list_fmap_ext. intros _ s _. simpl.
  by apply sentence_marks_commute.
Qed.

Lemma marking_commutes_witness :
  MinesweeperAI.mark_safe (2,0) (MinesweeperAI.mark_mine (2,2) after_opening)
  = MinesweeperAI.mark_mine (2,2) (MinesweeperAI.mark_safe (2,0) after_opening).
Proof. apply (marking_commutes (2,0) (2,2) after_opening). done. Defined.

(** X5.  Marking the cells of a list one after the other, as the extraction
    loop does, amounts to removing the set of these cells from every
    sentence at once: for safe cells the counts stay, for mines every count
    drops by the number of cells that the sentence loses.  The order and
    the repetitions in the list have no effect. *)
Theorem marking_a_set (l : list Cell) (st : MinesweeperAI) :
  let X : gset Cell := list_to_set l in
  (safes (MinesweeperAI.mark_safes l st) = safes st ∪ X
   ∧ mines (MinesweeperAI.mark_safes l st) = mines st
   ∧ knowledge (MinesweeperAI.mark_safes l st)
     = (λ s, {| cells := cells s ∖ X; count := count s |}) <$> knowledge st)
  ∧ (mines (MinesweeperAI.mark_mines l st) = mines st ∪ X
     ∧ safes (MinesweeperAI.mark_mines l st) = safes st
     ∧ knowledge (MinesweeperAI.mark_mines l st)
       = (λ s, {| cells := cells s ∖ X;
                  count := count s - Z.of_nat (size (cells s ∩ X)) |})
           <$> knowledge st).
Proof.
  intros X. rewrite mark_safes_closed, mark_mines_closed. by split_and!.
Qed.

(** ** Neighbours *)



(** X7.  A cell that is not on the border of the board has exactly 8
    neighbours. *)
Theorem get_neighbors_interior (st : MinesweeperAI) (i j : Z) :
  1 <= i < height st - 1 → 1 <= j < width st - 1 →
  length (MinesweeperAI.get_neighbors st (i, j)) = 8%nat.
Proof.
  intros Hi Hj.
  pose (around := [(i - 1, j - 1); (i - 1, j); (i - 1, j + 1);
                   (i, j - 1); (i, j + 1);
                   (i + 1, j - 1); (i + 1, j); (i + 1, j + 1)]).
  apply Nat.le_antisymm; [apply length_get_neighbors |].
  change 8%nat with (length around).
  apply submseteq_length, NoDup_submseteq.
  - unfold around. repeat (apply NoDup_cons; split;
      [rewrite ?elem_of_cons, elem_of_nil; intros Hin;
       repeat (destruct Hin as [[=] | Hin]; [lia |]); done |]).
    apply NoDup_nil_2.
  - intros [x y] Hin. apply elem_of_get_neighbors.
    unfold around in Hin. unfold in_board, adjacent. simpl.
    repeat (apply elem_of_cons in Hin as [[= -> ->] | Hin];
            [split_and!; try lia; intros [=]; lia |]).
    by apply elem_of_nil in Hin.
Qed.

Lemma get_neighbors_interior_witness :
  length (MinesweeperAI.get_neighbors after_opening (1, 1)) = 8%nat.
Proof.
  apply (get_neighbors_interior after_opening 1 1); simpl; lia.
Defined.

(** ** What the fixpoint procedure leaves alone *)

Lemma infers_origin (st st' : MinesweeperAI) :
  infers st st' →
  safes st' ⊆ safes st ∪ universe (knowledge st)
  ∧ mines st' ⊆ mines st ∪ universe (knowledge st).
Proof.
  destruct 1 as [st s Hin H0 Hne | st s Hin Hall Hne | st
                 | st s1 s2 H1 H2 Hneq Hsub Hnew Hne]; simpl;
    try (split; set_solver).
  - split; [| set_solver]. intros x [Hx | Hx]%elem_of_union; [set_solver |].
    apply elem_of_union. right. apply elem_of_universe. eauto.
  - split; [set_solver |]. intros x [Hx | Hx]%elem_of_union; [set_solver |].
    apply elem_of_union. right. apply elem_of_universe. eauto.
Qed.

(** X8.  [update_knowledge] never changes the size of the board or the
    moves made, never forgets a safe cell or a mine, never brings a cell
    into a sentence that no sentence had before, and every cell it newly
    marks as safe or as a mine was a cell of some sentence when it
    started. *)
Theorem update_knowledge_frame (fuel : nat) (st st' : MinesweeperAI) :
  MinesweeperAI.update_knowledge fuel st = Some st' →
  height st' = height st ∧ width st' = width st
  ∧ moves_made st' = moves_made st
  ∧ safes st ⊆ safes st' ∧ mines st ⊆ mines st'
  ∧ universe (knowledge st') ⊆ universe (knowledge st)
  ∧ safes st' ⊆ safes st ∪ universe (knowledge st)
  ∧ mines st' ⊆ mines st ∪ universe (knowledge st).
Proof.
  intros Hrun%update_knowledge_run.
  induction Hrun as [st | st st1 st' H1 _ IH].
  - split_and!; try done; set_solver.
  - pose proof (infers_frame _ _ H1) as (Hh & Hw & Hmv & Hm & Hs).
    pose proof (infers_universe _ _ H1) as Hu.
    pose proof (infers_origin _ _ H1) as [Hos Hom].
    destruct IH as (-> & -> & -> & ? & ? & ? & ? & ?).
    split_and!; try done; set_solver.
Qed.

Lemma update_knowledge_frame_witness :
  ∃ st',
    MinesweeperAI.update_knowledge 20
      (MinesweeperAI.record_observation after_opening (1,0) 0) = Some st'
    ∧ moves_made st' = {[ (0,0); (1,1); (1,0) ]}.
Proof.
  eexists. split; [vm_compute; reflexivity |].
  destruct (update_knowledge_frame 20
              (MinesweeperAI.record_observation after_opening (1,0) 0) _
              ltac:(vm_compute; reflexivity)) as (_ & _ & -> & _).
  vm_compute. reflexivity.
Defined.

(** ** Invariants of all reachable states *)

(** X9.  In every state reached from a fresh instance by any calls, every
    move made is a known safe cell; so [make_safe_move] returns [None]
    exactly when the known safe cells are the moves made. *)
Theorem moves_are_safe (h w : Z) (st : MinesweeperAI) :
  reachable any_call h w st →
  moves_made st ⊆ safes st
  ∧ (MinesweeperAI.make_safe_move st = None ↔ safes st = moves_made st).
Proof.
  intros Hreach.
  assert (moves_made st ⊆ safes st) as Hsub.
  { revert st Hreach.
    apply (reachable_invariant (λ st, moves_made st ⊆ safes st)).
    - done.
    - intros st st' (_ & _ & -> & _ & ?)%infers_frame ?. set_solver.
    - intros st cell k _ ?. rewrite record_observation_closed. simpl.
      set_solver.
    - intros st cell _ ?. simpl. set_solver.
    - intros st cell _ ?. simpl. set_solver. }
  split; [done |].
  pose proof (make_safe_move_spec st) as Hspec. split.
  - intros Hn. rewrite Hn in Hspec. by apply set_eq_subseteq.
  - intros Heq. destruct (MinesweeperAI.make_safe_move st) as [c |]; [| done].
    destruct Hspec as [Hc Hn]. rewrite Heq in Hc. done.
Qed.

Lemma moves_are_safe_witness :
  moves_made revealed_mine ⊆ safes revealed_mine
  ∧ (MinesweeperAI.make_safe_move revealed_mine = None
     ↔ safes revealed_mine = moves_made revealed_mine).
Proof. apply (moves_are_safe 1 2), revealed_mine_reachable. Defined.

(** X10.  In every state reached from a fresh instance by any calls, also
    between two observations and after [mark_mine] or [mark_safe] were
    called from outside, no sentence mentions a known mine or a known safe
    cell, and every cell of a sentence is a cell of the board. *)
Theorem knowledge_tidy (h w : Z) (st : MinesweeperAI) :
  reachable any_call h w st →
  ∀ s, s ∈ knowledge st →
       cells s ## mines st ∪ safes st
       ∧ ∀ c, c ∈ cells s → 0 <= c.1 < h ∧ 0 <= c.2 < w.
Proof.
  intros Hreach s Hs. split.
  - by apply (reachable_tidy _ _ _ _ Hreach).
  - intros c Hc. pose proof (reachable_on_board _ _ _ _ Hreach s c Hs Hc) as Hb.
    destruct (reachable_size _ _ _ _ Hreach) as [<- <-]. done.
Qed.

Lemma knowledge_tidy_witness :
  column1 ## mines before_spin ∪ safes before_spin
  ∧ ∀ c, c ∈ column1 → 0 <= c.1 < 2 ∧ 0 <= c.2 < 4.
Proof.
  apply (knowledge_tidy 2 4 before_spin before_spin_reachable
           {| cells := column1; count := 1 |}).
  by_evaluation.
Defined.

(** ** The result of the fixpoint procedure is a fixed point *)

Lemma collect_all (K : list Sentence) :
  (∀ s, s ∈ K → cells s ≠ ∅) → MinesweeperAI.collect K = K.
Proof.
  unfold MinesweeperAI.collect. induction K as [| s K IH]; intros HK; [done |].
  rewrite filter_cons_True.
  - f_equal. apply IH. intros t Ht. apply HK. by right.
  - apply truthy_true, HK. by left.
Qed.

Lemma stable_infers (st st' : MinesweeperAI) :
  stable st → infers st st' → st' = st.
Proof.
  intros [Hrest Hclosed].
  destruct 1 as [st s Hin H0 Hne | st s Hin Hall Hne | st
                 | st s1 s2 H1 H2 Hneq Hsub Hnew Hne].
  - by destruct (Hrest s Hin) as (_ & ? & _).
  - by destruct (Hrest s Hin) as (_ & _ & ?).
  - rewrite collect_all; [apply set_knowledge_same |].
    intros s Hs. by destruct (Hrest s Hs).
  - by destruct (Hclosed s1 s2 H1 H2).
Qed.

Lemma stable_steps (n : nat) (c : config) :
  stable (ai c) → ai (steps n c) = ai c.
Proof.
  revert c. induction n as [| n IH]; intros c Hc; simpl; [done |].
  destruct (step_infers c) as [Heq | Hinf].
  - rewrite IH; rewrite Heq; done.
  - apply (stable_infers _ _ Hc) in Hinf. rewrite IH; rewrite Hinf; done.
Qed.

Lemma combine_phase_closed (st : MinesweeperAI) (ch : bool) :
  (∀ s1 s2, s1 ∈ knowledge st → s2 ∈ knowledge st →
            ¬ productive (knowledge st) s1 s2) →
  ∀ i j, ∃ n i' j',
    steps n {| ai := st; changed := ch; at_pc := Combine i j |}
    = {| ai := st; changed := ch; at_pc := Combine i' j' |}
    ∧ knowledge st !! i' = None.
Proof.
  intros Hclosed i j.
  remember (length (knowledge st) - i)%nat as d1 eqn:Hd1.
  revert i j Hd1. induction d1 as [| d1 IH1]; intros i j Hd1.
  { exists 0%nat, i, j. split; [done |]. apply lookup_ge_None. lia. }
  destruct (knowledge st !! i) as [s1 |] eqn:Hi;
    [| apply lookup_ge_None in Hi; lia].
  remember (length (knowledge st) - j)%nat as d2 eqn:Hd2.
  revert j Hd2. induction d2 as [| d2 IH2]; intros j Hd2.
  { destruct (IH1 (S i) 0%nat) as (n & i' & j' & Hn & Hend); [lia |].
    exists (S n), i', j'. split; [| done].
    simpl. unfold MinesweeperAI.step at 1. simpl. rewrite Hi.
    rewrite (proj2 (lookup_ge_None _ _)) by lia. done. }
  destruct (knowledge st !! j) as [s2 |] eqn:Hj;
    [| apply lookup_ge_None in Hj; lia].
  destruct (IH2 (S j)) as (n & i' & j' & Hn & Hend); [lia |].
  exists (S n), i', j'. split; [| done].
  simpl. unfold MinesweeperAI.step at 1. simpl. rewrite Hi, Hj.
  rewrite combine_body_skip.
  - simpl. by rewrite set_knowledge_same.
  - apply Hclosed; by eapply list_elem_of_lookup_2.
Qed.

Lemma stable_returns (st : MinesweeperAI) :
  stable st → ∃ fuel, MinesweeperAI.update_knowledge fuel st = Some st.
Proof.
  intros Hst.
  destruct (extract_phase _ st false 0%nat eq_refl)
    as (n1 & st1 & ch1 & Hn1 & Hrel).
  pose proof (stable_steps n1 (MinesweeperAI.enter st) Hst) as Hsame.
  unfold MinesweeperAI.enter in Hsame. rewrite Hn1 in Hsame. simpl in Hsame.
  assert (ch1 = false) as ->.
  { destruct Hrel as [[_ ->] | [_ [_ Hlt]]]; [done |]. exfalso. apply Hlt.
    rewrite <- Hsame at 1. simpl. by rewrite universe_collect. }
  rewrite Hsame in Hn1.
  destruct (combine_phase_closed st false (proj2 Hst) 0%nat 0%nat)
    as (n2 & i' & j' & Hn2 & Hend).
  exists (n1 + n2 + 1)%nat.
  assert (steps (n1 + n2 + 1) (MinesweeperAI.enter st)
          = {| ai := st; changed := false; at_pc := Halted |}) as Hn.
  { rewrite !steps_add. unfold MinesweeperAI.enter at 1. rewrite Hn1, Hn2.
    simpl. unfold MinesweeperAI.step. simpl. by rewrite Hend. }
  unfold MinesweeperAI.update_knowledge.
  rewrite (steps_run (n1 + n2 + 1)); by rewrite Hn.
Qed.

(** X11.  The state that [update_knowledge] returns is a fixed point: run
    again on its own result, the procedure halts after one round and
    returns the state unchanged. *)
Theorem update_knowledge_idempotent (fuel : nat) (st st' : MinesweeperAI) :
  MinesweeperAI.update_knowledge fuel st = Some st' →
  ∃ fuel', MinesweeperAI.update_knowledge fuel' st' = Some st'.
Proof. intros Hrun. by apply stable_returns, (update_knowledge_stable fuel st). Qed.

Lemma update_knowledge_idempotent_witness :
  ∃ st',
    MinesweeperAI.update_knowledge 20
      (MinesweeperAI.record_observation after_opening (1,0) 0) = Some st'
    ∧ ∃ fuel', MinesweeperAI.update_knowledge fuel' st' = Some st'.
Proof.
  eexists. split; [vm_compute; reflexivity |].
  apply (update_knowledge_idempotent 20
           (MinesweeperAI.record_observation after_opening (1,0) 0)).
  vm_compute. reflexivity.
Defined.

(** X12.  When [update_knowledge] returns, the knowledge is closed under
    subsumption: for two different sentences of which the first has its
    cells among those of the second, and not all of them, the sentence on
    the remaining cells with the difference of the counts is in the
    knowledge. *)
Theorem knowledge_closed_under_subsumption (fuel : nat)
    (st st' : MinesweeperAI) (s1 s2 : Sentence) :
  MinesweeperAI.update_knowledge fuel st = Some st' →
  s1 ∈ knowledge st' → s2 ∈ knowledge st' →
  cells s1 ⊆ cells s2 → cells s2 ∖ cells s1 ≠ ∅ →
  {| cells := cells s2 ∖ cells s1; count := count s2 - count s1 |}
    ∈ knowledge st'.
Proof.
  intros [_ Hclosed]%update_knowledge_stable H1 H2 Hsub Hne.
  fold (candidate s1 s2).
  destruct (decide (candidate s1 s2 ∈ knowledge st')) as [| Hnot]; [done |].
  destruct (Hclosed s1 s2 H1 H2). split_and!; try done.
  intros ->. apply Hne. set_solver.
Qed.

Lemma knowledge_closed_under_subsumption_witness :
  ∃ st', MinesweeperAI.update_knowledge 40 nested_pair = Some st'
         ∧ CD1 ∈ knowledge st'.
Proof.
  eexists. split; [vm_compute; reflexivity |].
  assert (CD1 = {| cells := cells ABCD2 ∖ cells AB1;
                   count := count ABCD2 - count AB1 |}) as ->.
  { vm_compute. reflexivity. }
  apply (knowledge_closed_under_subsumption 40 nested_pair).
  - vm_compute. reflexivity.
  - by_evaluation.
  - by_evaluation.
  - by_evaluation.
  - by_evaluation.
Defined.

(** ** The queries and the narrowing operations under ground truth *)

(** X13.  When a sentence is true of the mine assignment [M] (its count is
    the number of its cells that are mines), the cells that [known_mines]
    returns are mines of [M] and the cells that [known_safes] returns are
    not; and never do both queries return a cell. *)
Theorem queries_sound (M : gset Cell) (s : Sentence) :
  count s = Z.of_nat (size (cells s ∩ M)) →
  Sentence.known_mines s ⊆ M
  ∧ Sentence.known_safes s ## M
  ∧ (Sentence.known_safes s = ∅ ∨ Sentence.known_mines s = ∅).
Proof.
  intros Hs. split_and!.
  - by apply holds_known_mines.
  - by apply holds_known_safes.
  - destruct (extract_body_spec s (MinesweeperAI.init 0 0) false)
      as [H0 Hne | Hall Hne | Hsafe Hmine]; [right | left | by left].
    + unfold Sentence.known_mines. rewrite decide_False; [done |].
      intros Heq. rewrite H0 in Heq.
      assert (size (cells s) = 0%nat) as Hz by lia.
      by apply size_empty_inv, leibniz_equiv in Hz.
    + unfold Sentence.known_safes. rewrite decide_False; [done |].
      intros Heq. rewrite Heq in Hall.
      assert (size (cells s) = 0%nat) as Hz by lia.
      by apply size_empty_inv, leibniz_equiv in Hz.
Qed.

Lemma queries_sound_witness :
  ((0,0) ∈ Sentence.known_mines both_mines
   ∧ Sentence.known_mines both_mines ⊆ three_mines
   ∧ Sentence.known_safes both_mines ## three_mines
   ∧ (Sentence.known_safes both_mines = ∅
      ∨ Sentence.known_mines both_mines = ∅))
  ∧ ((2,0) ∈ Sentence.known_safes second_row
     ∧ Sentence.known_mines second_row ⊆ one_mine
     ∧ Sentence.known_safes second_row ## one_mine
     ∧ (Sentence.known_safes second_row = ∅
        ∨ Sentence.known_mines second_row = ∅)).
Proof.
  split.
  - split; [by_evaluation |].
    apply (queries_sound three_mines both_mines). vm_compute. reflexivity.
  - split; [by_evaluation |].
    apply (queries_sound one_mine second_row). vm_compute. reflexivity.
Defined.

(** X14.  Narrowing a true sentence with a true fact keeps it true:
    [mark_mine] with a mine of [M] and [mark_safe] with a cell that is not a
    mine.  Marking a member cell as a mine that is none makes the sentence
    false. *)
Theorem narrowing_sound (M : gset Cell) (s : Sentence) (c : Cell) :
  count s = Z.of_nat (size (cells s ∩ M)) →
  (c ∈ M →
   count (Sentence.mark_mine c s)
   = Z.of_nat (size (cells (Sentence.mark_mine c s) ∩ M)))
  ∧ (c ∉ M →
     count (Sentence.mark_safe c s)
     = Z.of_nat (size (cells (Sentence.mark_safe c s) ∩ M)))
  ∧ (c ∉ M → c ∈ cells s →
     count (Sentence.mark_mine c s)
     ≠ Z.of_nat (size (cells (Sentence.mark_mine c s) ∩ M))).
Proof.
  intros Hs. split_and!.
  - intros Hc. by apply (holds_mark_mine M).
  - intros Hc. by apply (holds_mark_safe M).
  - intros Hc Hin. rewrite count_mark_mine, decide_True by done.
    rewrite cells_mark_mine, Hs.
    replace ((cells s ∖ {[c]}) ∩ M) with (cells s ∩ M) by set_solver. lia.
Qed.

Lemma narrowing_sound_witness :
  count (Sentence.mark_mine (2,2) (Sentence.mark_safe (2,0) AB1)) = 1
  ∧ count (Sentence.mark_safe (0,1) AB1)
    = Z.of_nat (size (cells (Sentence.mark_safe (0,1) AB1) ∩ {[ (0,0) ]})).
Proof.
  split; [reflexivity |].
  apply (narrowing_sound {[ (0,0) ]} AB1 (0,1)).
  - vm_compute. reflexivity.
  - by_evaluation.
Defined.

(** X15.  In a game in which every call tells the truth about the mine
    assignment [M], no move made is a mine, so the moves made and the known
    mines are disjoint, which is what the size test of [make_random_move]
    relies on. *)
Theorem moves_avoid_mines (M : gset Cell) (h w : Z) (st : MinesweeperAI) :
  reachable (truthful M) h w st →
  moves_made st ## M ∧ moves_made st ## mines st.
Proof.
  intros Hreach.
  assert (moves_made st ## M) as Hd.
  { revert st Hreach.
    apply (reachable_invariant (λ st, moves_made st ## M)).
    - simpl. set_solver.
    - by intros st st' (_ & _ & -> & _)%infers_frame ?.
    - intros st cell k [Hc _] ?. rewrite record_observation_closed. simpl.
      set_solver.
    - done.
    - done. }
  split; [done |].
  destruct (reachable_sound _ _ _ _ Hreach) as (Hm & _). set_solver.
Qed.

Lemma moves_avoid_mines_witness :
  moves_made three_revealed ## four_mines
  ∧ moves_made three_revealed ## mines three_revealed.
Proof. apply (moves_avoid_mines four_mines 3 4), three_revealed_reachable. Defined.

(** ** More on the moves and the calls *)

(** X16.  While the sizes of the moves made and of the mines do not add up
    to the size of the board, [make_random_move] skips every draw that is
    a move made or a known mine and returns the first draw that is
    neither. *)
Theorem make_random_move_first_free (st : MinesweeperAI)
    (taken rest : list Cell) (c : Cell) :
  (∀ d, d ∈ taken → ¬ free st d) → ¬ exhausted st → free st c →
  MinesweeperAI.make_random_move st (taken ++ c :: rest) = Some (Some c).
Proof.
  intros Htaken Hroom Hc. induction taken as [| d taken IH].
  - simpl app. rewrite make_random_move_cons. by rewrite decide_True.
  - change ((d :: taken) ++ c :: rest) with (d :: (taken ++ c :: rest)).
    rewrite make_random_move_cons.
    rewrite decide_False by (apply Htaken; by left).
    rewrite decide_False by done.
    apply IH. intros d' Hd'. apply Htaken. by right.
Qed.

Lemma make_random_move_first_free_witness :
  MinesweeperAI.make_random_move after_opening
    ([(0,0); (1,1); (0,0)] ++ (2,1) :: [(2,2)])
  = Some (Some (2,1)).
Proof.
  apply (make_random_move_first_free after_opening [(0,0); (1,1); (0,0)]).
  - intros d Hd [Hfree _].
    repeat (apply elem_of_cons in Hd as [-> | Hd]);
      try (by apply elem_of_nil in Hd); apply Hfree; by_evaluation.
  - unfold exhausted. by_evaluation.
  - split; by_evaluation.
Defined.

(** X17.  No call of the interface forgets anything: after every call that
    returns, the board has the size it had, and the moves made, the known
    safe cells and the known mines include those from before the call. *)
Theorem calls_only_add (fuel : nat) (st st' : MinesweeperAI) (o : call) :
  perform fuel st o = Some st' →
  height st' = height st ∧ width st' = width st
  ∧ moves_made st ⊆ moves_made st'
  ∧ safes st ⊆ safes st' ∧ mines st ⊆ mines st'.
Proof.
  destruct o as [cell k | cell | cell | | draws]; simpl.
  - unfold MinesweeperAI.add_knowledge. intros Hrun%update_knowledge_run.
    assert (∀ a b, rtc infers a b →
              height b = height a ∧ width b = width a
              ∧ moves_made b = moves_made a
              ∧ safes a ⊆ safes b ∧ mines a ⊆ mines b) as Hframe.
    { induction 1 as [| a b c' H1 _ IH]; [done |].
      apply infers_frame in H1 as (Hh & Hw & Hmv & ? & ?).
      destruct IH as (-> & -> & -> & ? & ?). split_and!; try done; set_solver. }
    apply Hframe in Hrun as (-> & -> & -> & Hs & Hm).
    rewrite record_observation_closed in *. simpl in *.
    split_and!; try done; set_solver.
  - intros [= <-]. simpl. split_and!; try done. set_solver.
  - intros [= <-]. simpl. split_and!; try done. set_solver.
  - by intros [= <-].
  - by intros [= <-].
Qed.

Lemma calls_only_add_witness :
  ∃ st', perform 20 after_opening (AddKnowledge (1,0) 0) = Some st'
         ∧ height st' = 3 ∧ width st' = 3
         ∧ moves_made after_opening ⊆ moves_made st'
         ∧ safes after_opening ⊆ safes st' ∧ mines after_opening ⊆ mines st'.
Proof.
  eexists. split; [vm_compute; reflexivity |].
  apply (calls_only_add 20 after_opening _ (AddKnowledge (1,0) 0)).
  vm_compute. reflexivity.
Defined.
